(** * A fixed-timestep game loop: shallow embedding and verification

    The development embeds the two variants of the [GameLoop] class of the
    repository:

    - [src/src/game-loop.ts]: a chain of [setTimeout] callbacks, each arming
      the next one, guarded by a running flag (module [game_loop]);
    - [src/unnamed/part_000]: an older variant driven by [setInterval]
      (module [part_000]).

    Conventions of the embedding.

    - A JavaScript [number] is embedded twice.  Module [Number] is exact
      arithmetic: a rational extended with [Infinity], [-Infinity] and
      [NaN], without rounding and with a single zero; finite results are
      kept as reduced fractions.  Module [Double] is the arithmetic of the
      code: IEEE 754 binary64, from the specification of floating-point
      numbers of the Standard Library.  The class of
      [src/src/game-loop.ts] is embedded on each of them, statement by
      statement (modules [game_loop] and [game_loop_ieee]).  Properties
      that count invocations of the step function or add up time depend on
      rounding, and are stated on [game_loop_ieee]; there, lemma
      [whole_cycle] shows that a cycle is exact when the interval, the
      clamp and the clock readings are whole numbers of milliseconds.
    - [currentTime()] is [new Date().getTime()], an integer count of
      milliseconds: clock readings are [Z] and are supplied by the
      environment at each call that reads the clock.  Nothing makes a
      reading later than the previous one.
    - The caller-supplied step function owns a closure state of some type
      [Env]; one invocation updates that state and either simply returns or
      calls [stop()] on the loop it closes over (as the step functions of
      [src/test/index.test.ts] do).  A step function calling [start()] from
      inside a cycle is outside the model, and so are event listeners that
      call back into the loop.
    - The event emitter and the host timers are external: an emission, a
      clock reading and a timer registration are recorded in a log of
      effects, and the pending timers are kept in a queue from which the
      host delivers wake-ups.
    - The [while] loop of [update] is a fixpoint on a fuel argument; running
      out of fuel ([None]) stands for a loop that has not finished yet. *)

From Stdlib Require Import ZArith QArith Qround Lia Lqa List Bool String.
From Stdlib Require Import SpecFloat.
Import ListNotations.

Set Implicit Arguments.

(** ** JavaScript numbers *)

Module Number.

Inductive number : Type :=
| Num (q : Q)
| Infinity
| NegInfinity
| NaN.

Definition of_Z (z : Z) : number := Num (inject_Z z).

Definition Qlt_bool (a b : Q) : bool := negb (Qle_bool b a).

(** [x + y]. *)
Definition add (x y : number) : number :=
  match x, y with
  | NaN, _ | _, NaN => NaN
  | Num a, Num b => Num (Qred (a + b))
  | Infinity, NegInfinity | NegInfinity, Infinity => NaN
  | Infinity, _ | _, Infinity => Infinity
  | NegInfinity, _ | _, NegInfinity => NegInfinity
  end.

(** [x - y]. *)
Definition sub (x y : number) : number :=
  match x, y with
  | NaN, _ | _, NaN => NaN
  | Num a, Num b => Num (Qred (a - b))
  | Infinity, Infinity | NegInfinity, NegInfinity => NaN
  | Infinity, _ | _, NegInfinity => Infinity
  | NegInfinity, _ | _, Infinity => NegInfinity
  end.

(** [x / y]. *)
Definition div (x y : number) : number :=
  match x, y with
  | NaN, _ | _, NaN => NaN
  | Num a, Num b =>
      if Qeq_bool b 0 then
        if Qlt_bool 0 a then Infinity
        else if Qlt_bool a 0 then NegInfinity
        else NaN
      else Num (Qred (a / b))
  | Num _, _ => Num 0
  | Infinity, Num b => if Qlt_bool b 0 then NegInfinity else Infinity
  | NegInfinity, Num b => if Qlt_bool b 0 then Infinity else NegInfinity
  | _, _ => NaN
  end.

(** [x < y]; every comparison with [NaN] is false. *)
Definition lt (x y : number) : bool :=
  match x, y with
  | NaN, _ | _, NaN => false
  | Num a, Num b => Qlt_bool a b
  | _, NegInfinity => false
  | Infinity, _ => false
  | NegInfinity, _ => true
  | _, Infinity => true
  end.

(** [x <= y]. *)
Definition le (x y : number) : bool :=
  match x, y with
  | NaN, _ | _, NaN => false
  | Num a, Num b => Qle_bool a b
  | NegInfinity, _ => true
  | _, Infinity => true
  | _, NegInfinity => false
  | Infinity, _ => false
  end.

(** [x > y] and [x >= y]. *)
Definition gt (x y : number) : bool := lt y x.
Definition ge (x y : number) : bool := le y x.

(** [Math.min(x, y)]. *)
Definition min (x y : number) : number :=
  match x, y with
  | NaN, _ | _, NaN => NaN
  | _, _ => if le x y then x else y
  end.

(** [Math.floor(x)] of a finite number, as an integer. *)
Definition floor (q : Q) : Z := Qfloor q.

End Number.

Import Number.

(** ** Callbacks, completions and the monad of method bodies *)

(** What one invocation of the caller's step function does to the loop it
    closes over: nothing, or a call of [stop()]. *)
Inductive Reentry : Type :=
| Returns
| CallsStop.

(** How a call of a JavaScript constructor ends. *)
Inductive Completion (A : Type) : Type :=
| Returned (a : A)
| Threw (message : string).

Arguments Threw {A} message.

(** A method body reads and updates a world [W] (the object, the closure of
    the callbacks and the host); [None] is a body that ran out of fuel. *)
Definition M (W A : Type) : Type := W -> option (A * W).

Definition ret {W A : Type} (a : A) : M W A := fun w => Some (a, w).

Definition bind {W A B : Type} (c : M W A) (k : A -> M W B) : M W B :=
  fun w => match c w with
           | Some (a, w') => k a w'
           | None => None
           end.

Definition get {W : Type} : M W W := fun w => Some (w, w).

Definition modify {W : Type} (f : W -> W) : M W unit := fun w => Some (tt, f w).

Definition diverge {W A : Type} : M W A := fun _ => None.

(** The world a body ends in, when it ends. *)
Definition exec {W A : Type} (c : M W A) (w : W) : option W :=
  match c w with
  | Some (_, w') => Some w'
  | None => None
  end.

Declare Scope method_scope.
Delimit Scope method_scope with method.
Notation "x <- c ;; k" := (bind c (fun x => k))
  (at level 61, c at next level, right associativity) : method_scope.
Notation "c ;; k" := (bind c (fun _ => k))
  (at level 61, right associativity) : method_scope.

(** [while (cond) { body }], for at most [fuel] evaluations of [cond]. *)
Fixpoint while {W : Type} (fuel : nat) (cond : M W bool) (body : M W unit)
    : M W unit :=
  match fuel with
  | O => diverge
  | S fuel' =>
      bind cond (fun b =>
        if b then bind body (fun _ => while fuel' cond body) else ret tt)
  end.

(** ** [src/src/game-loop-options.ts] *)

(** [None] is an option left out (or [null]). *)
Record GameLoopOptions : Type := { delayClampMs : option number }.

(** The default value [{}] of the parameter [opts] of the constructors. *)
Definition no_opts : GameLoopOptions := {| delayClampMs := None |}.

(** [Required<GameLoopOptions>]. *)
Record RequiredGameLoopOptions : Type := { required_delayClampMs : number }.

(** [provideDefaultsForMissingOpts()], the same local function in both
    constructors; [opts.delayClampMs != null] fails for a missing option. *)
Definition provideDefaultsForMissingOpts (opts : GameLoopOptions)
    : RequiredGameLoopOptions :=
  {| required_delayClampMs :=
       match delayClampMs opts with
       | Some c => c
       | None => Num 200
       end |}.

(** ** [src/src/game-loop.ts] *)

Module game_loop.

(** What the loop does to its environment, in order of occurrence. *)
Inductive Effect : Type :=
| SetTimeout (delayMs : number)
| CurrentTime (reading : Z)
| StepFn (r : Reentry)
| EmitUpdate (payload : number)
| EmitGameStepDropped (overflowMs : number).

(** How many times a log invokes the step function, which timers it arms
    and which overflows it reports as dropped. *)
Definition invocations (es : list Effect) : nat :=
  List.length
    (filter (fun e => match e with StepFn _ => true | _ => false end) es).

Definition timeouts (es : list Effect) : list number :=
  flat_map (fun e => match e with SetTimeout d => [d] | _ => [] end) es.

Definition dropped (es : list Effect) : list number :=
  flat_map
    (fun e => match e with EmitGameStepDropped o => [o] | _ => [] end) es.

Section Loop.

(** The state captured by the caller's step function. *)
Variable Env : Type.

(** The private fields of the class. *)
Record GameLoop : Type := {
  stepFn : Env -> Env * Reentry;
  stepRate : number;
  previousStepTime : Z;
  residualDelayMs : number;
  delayClamp : number;
  _isRunning : bool
}.

Definition set_previousStepTime (t : Z) (l : GameLoop) : GameLoop :=
  {| stepFn := stepFn l; stepRate := stepRate l; previousStepTime := t;
     residualDelayMs := residualDelayMs l; delayClamp := delayClamp l;
     _isRunning := _isRunning l |}.

Definition set_residualDelayMs (r : number) (l : GameLoop) : GameLoop :=
  {| stepFn := stepFn l; stepRate := stepRate l;
     previousStepTime := previousStepTime l;
     residualDelayMs := r; delayClamp := delayClamp l;
     _isRunning := _isRunning l |}.

Definition set_isRunning (b : bool) (l : GameLoop) : GameLoop :=
  {| stepFn := stepFn l; stepRate := stepRate l;
     previousStepTime := previousStepTime l;
     residualDelayMs := residualDelayMs l; delayClamp := delayClamp l;
     _isRunning := b |}.

(** The object, the closure state of its step function, the host's queue of
    pending [setTimeout] callbacks (each is [() => this.update()], kept by
    its delay) and the log of effects so far. *)
Record World : Type := {
  self : GameLoop;
  closure : Env;
  timers : list number;
  log : list Effect
}.

Definition on_self (f : GameLoop -> GameLoop) (w : World) : World :=
  {| self := f (self w); closure := closure w; timers := timers w;
     log := log w |}.

Definition set_closure (s : Env) (w : World) : World :=
  {| self := self w; closure := s; timers := timers w; log := log w |}.

Definition set_timers (ts : list number) (w : World) : World :=
  {| self := self w; closure := closure w; timers := ts; log := log w |}.

Definition record (e : Effect) (w : World) : World :=
  {| self := self w; closure := closure w; timers := timers w;
     log := log w ++ [e] |}.

Local Open Scope method_scope.

Definition this : M World GameLoop := w <- get ;; ret (self w).

(** [this.emit(event, payload)]. *)
Definition emit (e : Effect) : M World unit := modify (record e).

(** [setTimeout(callback, delay)] with the callback [() => this.update()]. *)
Definition setTimeout (delay : number) : M World unit :=
  modify (fun w => set_timers (timers w ++ [delay]) w) ;;
  modify (record (SetTimeout delay)).

(** [currentTime()], reading [new Date().getTime()] from the environment. *)
Definition currentTime (reading : Z) : M World Z :=
  modify (record (CurrentTime reading)) ;; ret reading.

(** [get isRunning()]. *)
Definition isRunning : M World bool :=
  l <- this ;; ret (_isRunning l).

(** [get stepIntervalMs()]. *)
Definition stepIntervalMs : M World number :=
  l <- this ;; ret (div (Num 1000) (stepRate l)).

(** [get residualDelayAlpha()]. *)
Definition residualDelayAlpha : M World number :=
  l <- this ;;
  i <- stepIntervalMs ;;
  ret (div (residualDelayMs l) i).

(** [constructor(stepFn, stepRateHz, opts = {})]; [now] is the clock reading
    of the field initialiser of [previousStepTime]. *)
Definition constructor (step : Env -> Env * Reentry) (stepRateHz : number)
    (opts : GameLoopOptions) (now : Z) : Completion GameLoop :=
  let completeOpts := provideDefaultsForMissingOpts opts in
  Returned {| stepFn := step; stepRate := stepRateHz;
              previousStepTime := now; residualDelayMs := Num 0;
              delayClamp := required_delayClampMs completeOpts;
              _isRunning := false |}.

(** [stop()]. *)
Definition stop : M World unit :=
  modify (on_self (set_isRunning false)).

(** [clampResidualDelay()]. *)
Definition clampResidualDelay : M World unit :=
  l <- this ;;
  if gt (residualDelayMs l) (delayClamp l) then
    emit (EmitGameStepDropped (sub (residualDelayMs l) (delayClamp l))) ;;
    l <- this ;;
    modify (on_self (set_residualDelayMs
                       (min (residualDelayMs l) (delayClamp l))))
  else ret tt.

(** [queueNextIteration()]. *)
Definition queueNextIteration : M World unit :=
  i <- stepIntervalMs ;; setTimeout i.

(** [this.stepFn()]: the closure state advances, the call is logged, and the
    step function may have called [stop()] before it returned. *)
Definition call_stepFn : M World unit :=
  w <- get ;;
  let (s', r) := stepFn (self w) (closure w) in
  modify (set_closure s') ;;
  modify (record (StepFn r)) ;;
  match r with
  | Returns => ret tt
  | CallsStop => stop
  end.

(** The loop [while (this.residualDelayMs >= this.stepIntervalMs) { ... }]
    of [update]. *)
Definition drain_cond : M World bool :=
  l <- this ;;
  i <- stepIntervalMs ;;
  ret (ge (residualDelayMs l) i).

Definition drain_body : M World unit :=
  call_stepFn ;;
  l <- this ;;
  i <- stepIntervalMs ;;
  modify (on_self (set_residualDelayMs (sub (residualDelayMs l) i))).

Definition drain (fuel : nat) : M World unit :=
  while fuel drain_cond drain_body.

(** [update()], one scheduling cycle; [now] is what [currentTime()] returns
    in it. *)
Definition update (fuel : nat) (now : Z) : M World unit :=
  l <- this ;;
  if negb (_isRunning l) then ret tt
  else
    queueNextIteration ;;
    now <- currentTime now ;;
    l <- this ;;
    modify (on_self (set_residualDelayMs
                       (add (residualDelayMs l)
                            (of_Z (now - previousStepTime l))))) ;;
    modify (on_self (set_previousStepTime now)) ;;
    clampResidualDelay ;;
    drain fuel ;;
    alpha <- residualDelayAlpha ;;
    emit (EmitUpdate alpha).

(** The statements of [update] before its [while] loop, and those after
    it: a cycle that passes the guard is [prologue], the loop, [epilogue]. *)
Definition prologue (now : Z) : M World unit :=
  queueNextIteration ;;
  now <- currentTime now ;;
  l <- this ;;
  modify (on_self (set_residualDelayMs
                     (add (residualDelayMs l)
                          (of_Z (now - previousStepTime l))))) ;;
  modify (on_self (set_previousStepTime now)) ;;
  clampResidualDelay.

Definition epilogue : M World unit :=
  alpha <- residualDelayAlpha ;;
  emit (EmitUpdate alpha).

(** [start()]; [t1] is the clock reading stored in [previousStepTime] and
    [t2] the one taken by the cycle that [start] runs. *)
Definition start (fuel : nat) (t1 t2 : Z) : M World GameLoop :=
  stop ;;
  t1 <- currentTime t1 ;;
  modify (on_self (set_previousStepTime t1)) ;;
  modify (on_self (set_isRunning true)) ;;
  update fuel t2 ;;
  this.

(** The host delivers the oldest pending timer: it leaves the queue and its
    callback [() => this.update()] runs. *)
Definition wake (fuel : nat) (now : Z) : M World unit :=
  w <- get ;;
  match timers w with
  | [] => ret tt
  | _ :: rest => modify (set_timers rest) ;; update fuel now
  end.

(** What can happen to a loop between two cycles: a call of its public
    methods from outside, or a wake-up. *)
Inductive Action : Type :=
| Start (t1 t2 : Z)
| Stop
| Wake (now : Z).

Definition perform (fuel : nat) (a : Action) : M World unit :=
  match a with
  | Start t1 t2 => start fuel t1 t2 ;; ret tt
  | Stop => stop
  | Wake now => wake fuel now
  end.

Fixpoint run (fuel : nat) (acts : list Action) : M World unit :=
  match acts with
  | [] => ret tt
  | a :: rest => perform fuel a ;; run fuel rest
  end.

(** A loop fresh from its constructor, in a host with nothing pending. *)
Definition boot (s : Env) (l : GameLoop) : World :=
  {| self := l; closure := s; timers := []; log := [] |}.

(** The residual delay [clampResidualDelay] leaves, given the residual
    delay [r] it finds and the clamp [c]. *)
Definition clamped (r c : number) : number :=
  if gt r c then min r c else r.

(** The value of [this.stepIntervalMs] in a world. *)
Definition interval (w : World) : number :=
  div (Num 1000) (stepRate (self w)).

(** The residual delay of a cycle once the elapsed time is added, before
    the clamp check. *)
Definition accumulated (now : Z) (w : World) : number :=
  add (residualDelayMs (self w)) (of_Z (now - previousStepTime (self w))).

(** The world in which the [while] loop of a cycle starts. *)
Definition loop_entry (now : Z) (w : World) : World :=
  match exec (prologue now) w with
  | Some w1 => w1
  | None => w
  end.

(** The world in which the cycle run by [start()] begins. *)
Definition restarted (t1 : Z) (w : World) : World :=
  on_self (set_isRunning true)
    (on_self (set_previousStepTime t1)
       (record (CurrentTime t1) (on_self (set_isRunning false) w))).

(** One turn of the [while] loop. *)
Definition iteration (w : World) : World :=
  match exec drain_body w with
  | Some w1 => w1
  | None => w
  end.

(** What the [while] loop leaves alone: everything but the residual delay,
    the closure of the step function, the running flag (which can only be
    cleared) and the log (which only gains invocations). *)
Record framed (w w' : World) : Prop := {
  framed_stepFn : stepFn (self w') = stepFn (self w);
  framed_stepRate : stepRate (self w') = stepRate (self w);
  framed_previousStepTime :
    previousStepTime (self w') = previousStepTime (self w);
  framed_delayClamp : delayClamp (self w') = delayClamp (self w);
  framed_isRunning :
    _isRunning (self w') = true -> _isRunning (self w) = true;
  framed_timers : timers w' = timers w;
  framed_log : exists rs, log w' = log w ++ map StepFn rs
}.

End Loop.

Arguments this {Env}.
Arguments emit {Env}.
Arguments setTimeout {Env}.
Arguments currentTime {Env}.
Arguments isRunning {Env}.
Arguments stepIntervalMs {Env}.
Arguments residualDelayAlpha {Env}.
Arguments stop {Env}.
Arguments clampResidualDelay {Env}.
Arguments queueNextIteration {Env}.
Arguments call_stepFn {Env}.
Arguments drain_cond {Env}.
Arguments drain_body {Env}.
Arguments drain {Env}.
Arguments update {Env}.
Arguments prologue {Env}.
Arguments epilogue {Env}.
Arguments start {Env}.
Arguments wake {Env}.
Arguments perform {Env}.
Arguments run {Env}.

(** The actions of a script that are not a call of [start()]. *)
Definition not_Start (a : Action) : Prop :=
  match a with
  | Start _ _ => False
  | Stop | Wake _ => True
  end.

(** A script whose clock readings never go back, from the reading [last]. *)
Fixpoint monotone (last : Z) (acts : list Action) : Prop :=
  match acts with
  | [] => True
  | Start t1 t2 :: rest => (last <= t1 <= t2)%Z /\ monotone t2 rest
  | Stop :: rest => monotone last rest
  | Wake now :: rest => (last <= now)%Z /\ monotone now rest
  end.



End game_loop.

(** The number of whole intervals [i] in a residual delay [r]. *)
Definition turns (r i : Q) : nat := Z.to_nat (floor (r / i)).

(** ** [src/unnamed/part_000] *)

Module part_000.

Inductive Effect : Type :=
| SetInterval (id : nat) (delayMs : number)
| ClearInterval (handle : option nat)
| CurrentTime (reading : Z)
| StepHandler (r : Reentry)
| EmitUpdate (payload : number)
| EmitGameStepDropped (overflowMs : number).

Definition invocations (es : list Effect) : nat :=
  List.length
    (filter (fun e => match e with StepHandler _ => true | _ => false end) es).

Section Loop.

Variable Env : Type.

(** The private fields of the class; [tickIntervalId] is [None] while it is
    [undefined]. *)
Record GameLoop : Type := {
  previousStepTime : Z;
  residualDelay : number;
  delayClamp : number;
  stepRate : number;
  tickIntervalId : option nat;
  stepHandler : Env -> Env * Reentry
}.

Definition set_previousStepTime (t : Z) (l : GameLoop) : GameLoop :=
  {| previousStepTime := t; residualDelay := residualDelay l;
     delayClamp := delayClamp l; stepRate := stepRate l;
     tickIntervalId := tickIntervalId l; stepHandler := stepHandler l |}.

Definition set_residualDelay (r : number) (l : GameLoop) : GameLoop :=
  {| previousStepTime := previousStepTime l; residualDelay := r;
     delayClamp := delayClamp l; stepRate := stepRate l;
     tickIntervalId := tickIntervalId l; stepHandler := stepHandler l |}.

Definition set_tickIntervalId (h : option nat) (l : GameLoop) : GameLoop :=
  {| previousStepTime := previousStepTime l;
     residualDelay := residualDelay l;
     delayClamp := delayClamp l; stepRate := stepRate l;
     tickIntervalId := h; stepHandler := stepHandler l |}.

(** The object, the closure state of its step function, the host's active
    interval timers (identifier and period; the callback of each is
    [() => this.update()]), the identifier the host hands out next and the
    log of effects so far. *)
Record World : Type := {
  self : GameLoop;
  closure : Env;
  intervals : list (nat * number);
  next_id : nat;
  log : list Effect
}.

Definition on_self (f : GameLoop -> GameLoop) (w : World) : World :=
  {| self := f (self w); closure := closure w; intervals := intervals w;
     next_id := next_id w; log := log w |}.

Definition set_closure (s : Env) (w : World) : World :=
  {| self := self w; closure := s; intervals := intervals w;
     next_id := next_id w; log := log w |}.

Definition set_intervals (ts : list (nat * number)) (n : nat) (w : World)
    : World :=
  {| self := self w; closure := closure w; intervals := ts;
     next_id := n; log := log w |}.

Definition record (e : Effect) (w : World) : World :=
  {| self := self w; closure := closure w; intervals := intervals w;
     next_id := next_id w; log := log w ++ [e] |}.

Local Open Scope method_scope.

Definition this : M World GameLoop := w <- get ;; ret (self w).

Definition emit (e : Effect) : M World unit := modify (record e).

(** [setInterval(callback, delay)] with the callback [() => this.update()]. *)
Definition setInterval (delay : number) : M World nat :=
  w <- get ;;
  let id := next_id w in
  modify (set_intervals (intervals w ++ [(id, delay)]) (S id)) ;;
  modify (record (SetInterval id delay)) ;;
  ret id.

(** [clearInterval(handle)]; an [undefined] handle clears nothing. *)
Definition clearInterval (handle : option nat) : M World unit :=
  w <- get ;;
  modify (set_intervals
            (match handle with
             | Some id =>
                 filter (fun t => negb (Nat.eqb (fst t) id)) (intervals w)
             | None => intervals w
             end)
            (next_id w)) ;;
  modify (record (ClearInterval handle)).

Definition currentTime (reading : Z) : M World Z :=
  modify (record (CurrentTime reading)) ;; ret reading.

(** [get msPerStep()]. *)
Definition msPerStep : M World number :=
  l <- this ;; ret (div (Num 1000) (stepRate l)).

(** [constructor(gameUpdateFn, stepRateHz, opts = {})]. *)
Definition constructor (gameUpdateFn : Env -> Env * Reentry)
    (stepRateHz : number) (opts : GameLoopOptions) : Completion GameLoop :=
  let completeOpts := provideDefaultsForMissingOpts opts in
  Returned {| previousStepTime := 0; residualDelay := Num 0;
              delayClamp := required_delayClampMs completeOpts;
              stepRate := stepRateHz;
              tickIntervalId := None; stepHandler := gameUpdateFn |}.

(** [stop()]. *)
Definition stop : M World unit :=
  l <- this ;; clearInterval (tickIntervalId l).

(** [start()]. *)
Definition start (now : Z) : M World unit :=
  stop ;;
  l <- this ;;
  id <- setInterval (stepRate l) ;;
  modify (on_self (set_tickIntervalId (Some id))) ;;
  now <- currentTime now ;;
  modify (on_self (set_previousStepTime now)).

(** [isRunning()]. *)
Definition isRunning : M World bool :=
  l <- this ;;
  ret (match tickIntervalId l with Some _ => true | None => false end).

(** [clampResidualDelay()]. *)
Definition clampResidualDelay : M World unit :=
  l <- this ;;
  if gt (residualDelay l) (delayClamp l) then
    emit (EmitGameStepDropped (sub (residualDelay l) (delayClamp l))) ;;
    l <- this ;;
    modify (on_self (set_residualDelay
                       (min (residualDelay l) (delayClamp l))))
  else ret tt.

(** [this.stepHandler()]. *)
Definition call_stepHandler : M World unit :=
  w <- get ;;
  let (s', r) := stepHandler (self w) (closure w) in
  modify (set_closure s') ;;
  modify (record (StepHandler r)) ;;
  match r with
  | Returns => ret tt
  | CallsStop => stop
  end.

(** The loop [while (this.residualDelay >= this.msPerStep) { ... }]. *)
Definition drain_cond : M World bool :=
  l <- this ;;
  i <- msPerStep ;;
  ret (ge (residualDelay l) i).

Definition drain_body : M World unit :=
  call_stepHandler ;;
  l <- this ;;
  i <- msPerStep ;;
  modify (on_self (set_residualDelay (sub (residualDelay l) i))).

Definition drain (fuel : nat) : M World unit :=
  while fuel drain_cond drain_body.

(** [update()]. *)
Definition update (fuel : nat) (now : Z) : M World unit :=
  now <- currentTime now ;;
  l <- this ;;
  modify (on_self (set_residualDelay
                     (add (residualDelay l)
                          (of_Z (now - previousStepTime l))))) ;;
  modify (on_self (set_previousStepTime now)) ;;
  clampResidualDelay ;;
  drain fuel ;;
  l <- this ;;
  emit (EmitUpdate (residualDelay l)).

(** The host fires the interval timer [id], if it is still active. *)
Definition tick (fuel : nat) (id : nat) (now : Z) : M World unit :=
  w <- get ;;
  if existsb (fun t => Nat.eqb (fst t) id) (intervals w)
  then update fuel now
  else ret tt.

(** A loop fresh from its constructor; the host numbers its timers from 1. *)
Definition boot (s : Env) (l : GameLoop) : World :=
  {| self := l; closure := s; intervals := []; next_id := 1; log := [] |}.

Definition interval (w : World) : number :=
  div (Num 1000) (stepRate (self w)).

Definition iteration (w : World) : World :=
  match exec drain_body w with
  | Some w1 => w1
  | None => w
  end.

End Loop.

Arguments this {Env}.
Arguments emit {Env}.
Arguments setInterval {Env}.
Arguments clearInterval {Env}.
Arguments currentTime {Env}.
Arguments msPerStep {Env}.
Arguments stop {Env}.
Arguments start {Env}.
Arguments isRunning {Env}.
Arguments clampResidualDelay {Env}.
Arguments call_stepHandler {Env}.
Arguments drain_cond {Env}.
Arguments drain_body {Env}.
Arguments drain {Env}.
Arguments update {Env}.
Arguments tick {Env}.

End part_000.

(** ** Step functions used in examples *)

(** A step function that leaves the loop alone. *)
Definition inert (u : unit) : unit * Reentry := (u, Returns).

(** A step function that counts its invocations and stops the loop on the
    first one, as the step functions of [src/test/index.test.ts] do once
    they have run long enough. *)
Definition stops_at_once (count : nat) : nat * Reentry :=
  (S count, if Nat.eqb count 0 then CallsStop else Returns).

(** A world of [src/src/game-loop.ts] with an inert step function, nothing
    pending and an empty log: the step rate, the clamp, the reference time,
    the residual delay and the running flag are given. *)
Definition example_world (hz c : number) (t : Z) (r : number) (running : bool)
    : game_loop.World unit :=
  {| game_loop.self :=
       {| game_loop.stepFn := inert; game_loop.stepRate := hz;
          game_loop.previousStepTime := t; game_loop.residualDelayMs := r;
          game_loop.delayClamp := c; game_loop._isRunning := running |};
     game_loop.closure := tt; game_loop.timers := []; game_loop.log := [] |}.

(** The loop that [new GameLoop(inert, hz, { delayClampMs: c })] returns at
    the clock reading [t]. *)
Definition example_loop (hz c : number) (t : Z) : game_loop.GameLoop unit :=
  {| game_loop.stepFn := inert; game_loop.stepRate := hz;
     game_loop.previousStepTime := t; game_loop.residualDelayMs := Num 0;
     game_loop.delayClamp := c; game_loop._isRunning := false |}.

(** ** Reading the logs of [src/src/game-loop.ts] *)

(** What the invocations of the step function recorded in a log did, and
    the payloads of the update notifications it holds. *)
Definition reentries (es : list game_loop.Effect) : list Reentry :=
  flat_map (fun e => match e with game_loop.StepFn r => [r] | _ => [] end) es.

Definition updates (es : list game_loop.Effect) : list number :=
  flat_map
    (fun e => match e with game_loop.EmitUpdate a => [a] | _ => [] end) es.

(** No invocation of the list called [stop()]. *)
Definition all_return (rs : list Reentry) : bool :=
  forallb (fun r => match r with Returns => true | CallsStop => false end) rs.

(** How many calls of [start()] a script makes. *)
Definition starts (acts : list game_loop.Action) : nat :=
  List.length
    (filter (fun a => match a with game_loop.Start _ _ => true | _ => false end)
       acts).



(** A running loop at 100 Hz whose step function stops it on its first
    invocation, and the world its cycle at the reading 25 ends in. *)
Definition stopping_world : game_loop.World nat :=
  {| game_loop.self :=
       {| game_loop.stepFn := stops_at_once; game_loop.stepRate := Num 100;
          game_loop.previousStepTime := 0;
          game_loop.residualDelayMs := Num 0;
          game_loop.delayClamp := Num 200; game_loop._isRunning := true |};
     game_loop.closure := 0%nat; game_loop.timers := [];
     game_loop.log := [] |}.

Definition stopping_world_after : game_loop.World nat :=
  match game_loop.update 3 25 stopping_world with
  | Some (_, w') => w'
  | None => stopping_world
  end.

(** ** The host of [src/unnamed/part_000] *)

Module part_000_host.

Import part_000.

Section Host.

Variable Env : Type.

Local Open Scope method_scope.

(** The statements of [update] before its [while] loop. *)
Definition prologue (now : Z) : M (World Env) unit :=
  now <- currentTime now ;;
  l <- this ;;
  modify (on_self (set_residualDelay
                     (add (residualDelay l)
                          (of_Z (now - previousStepTime l))))) ;;
  modify (on_self (set_previousStepTime now)) ;;
  clampResidualDelay.

(** The world in which the [while] loop of a cycle starts. *)
Definition loop_entry (now : Z) (w : World Env) : World Env :=
  match exec (prologue now) w with
  | Some w1 => w1
  | None => w
  end.

(** What can happen to a loop between two cycles: a call of its public
    methods from outside, or the host firing the interval timer [id]. *)
Inductive Action : Type :=
| Start (now : Z)
| Stop
| Tick (id : nat) (now : Z).

Definition perform (fuel : nat) (a : Action) : M (World Env) unit :=
  match a with
  | Start now => start now
  | Stop => stop
  | Tick id now => tick fuel id now
  end.

Fixpoint run (fuel : nat) (acts : list Action) : M (World Env) unit :=
  match acts with
  | [] => ret tt
  | a :: rest => perform fuel a ;; run fuel rest
  end.

(** The host has at most one active timer, and it is the one the loop
    remembers. *)
Definition tidy (w : World Env) : Prop :=
  match intervals w with
  | [] => True
  | [(id, _)] => tickIntervalId (self w) = Some id
  | _ :: _ :: _ => False
  end.

(** The calls of [start()] are the only actions that arm a timer. *)
Definition not_Start (a : Action) : Prop :=
  match a with
  | Start _ => False
  | Stop | Tick _ _ => True
  end.

End Host.

Arguments prologue {Env}.
Arguments perform {Env}.
Arguments run {Env}.

(** The payloads of the update notifications of a log. *)
Definition updates (es : list Effect) : list number :=
  flat_map (fun e => match e with EmitUpdate a => [a] | _ => [] end) es.

(** A loop of this variant at 100 Hz with an inert step function, started
    at the reading 0: the host holds its timer, numbered 1. *)
Definition started_world : World unit :=
  {| self := {| previousStepTime := 0; residualDelay := Num 0;
                delayClamp := Num 200; stepRate := Num 100;
                tickIntervalId := Some 1%nat; stepHandler := inert |};
     closure := tt; intervals := [(1%nat, Num 100)]; next_id := 2;
     log := [] |}.

(** A loop of this variant at 100 Hz that was never started, and the
    world a call of its [update] at the reading 35 ends in. *)
Definition never_started : World unit :=
  {| self := {| previousStepTime := 0; residualDelay := Num 0;
                delayClamp := Num 200; stepRate := Num 100;
                tickIntervalId := None; stepHandler := inert |};
     closure := tt; intervals := []; next_id := 1;
     log := [] |}.

Definition never_started_after : World unit :=
  match update 4 35 never_started with
  | Some (_, w') => w'
  | None => never_started
  end.

(** The same loop after a restart, a tick of the new timer, a stop and a
    tick that comes too late. *)
Definition restart_script : list Action :=
  [Start 5; Tick 2 40; Stop; Tick 2 50].

Definition restarted_world : World unit :=
  match run 9 restart_script started_world with
  | Some (_, w') => w'
  | None => started_world
  end.

End part_000_host.

(** * The same loop on IEEE 754 doubles *)

(** ** JavaScript numbers as binary64 values *)

(** The numbers the code computes with are IEEE 754 doubles.  [Double]
    takes them from the specification of floating-point arithmetic of the
    Standard Library ([SpecFloat]), with 53 bits of precision and 1024 as
    the exponent of the infinities: results are rounded to nearest, ties to
    even, and there are two zeros. *)
Module Double.

Definition double : Type := spec_float.

Definition prec : Z := 53.
Definition emax : Z := 1024.

Definition Infinity : double := S754_infinity false.
Definition NegInfinity : double := S754_infinity true.
Definition NaN : double := S754_nan.

(** An integer as a number; the conversion rounds from [2 ^ 53] on. *)
Definition of_Z (z : Z) : double := binary_normalize prec emax z 0 false.

(** [x + y], [x - y] and [x / y]. *)
Definition add (x y : double) : double := SFadd prec emax x y.
Definition sub (x y : double) : double := SFsub prec emax x y.
Definition div (x y : double) : double := SFdiv prec emax x y.

(** [x < y] and [x <= y]; every comparison with [NaN] is false. *)
Definition lt (x y : double) : bool := SFltb x y.
Definition le (x y : double) : bool := SFleb x y.

(** [x > y] and [x >= y]. *)
Definition gt (x y : double) : bool := lt y x.
Definition ge (x y : double) : bool := le y x.

(** [Math.min(x, y)]: [NaN] if an argument is, and [-0] is below [+0]. *)
Definition min (x y : double) : double :=
  match x, y with
  | S754_nan, _ | _, S754_nan => S754_nan
  | S754_zero sx, S754_zero sy => S754_zero (sx || sy)
  | _, _ => if le x y then x else y
  end.

(** [m] shifted left by [k] bits. *)
Definition shl (m : positive) (k : nat) : positive := Nat.iter k xO m.

(** The double that holds the whole number [q], for [q] below [2 ^ 53]: a
    mantissa of 53 bits. *)
Definition whole (q : positive) : double :=
  S754_finite false (shl q (Z.to_nat (53 - Zpos (Pos.size q))))
    (Zpos (Pos.size q) - 53).

End Double.

(** ** [src/src/game-loop.ts] on doubles *)

(** The embedding of module [game_loop] again, statement by statement, with
    the arithmetic of [Double] in place of exact arithmetic.  A clock
    reading is still an integer supplied by the environment; it enters the
    arithmetic as the double [of_Z reading]. *)
Module game_loop_ieee.

Import Double.

Record GameLoopOptions : Type := { delayClampMs : option double }.

Definition no_opts : GameLoopOptions := {| delayClampMs := None |}.

Record RequiredGameLoopOptions : Type := { required_delayClampMs : double }.

(** [provideDefaultsForMissingOpts()]. *)
Definition provideDefaultsForMissingOpts (opts : GameLoopOptions)
    : RequiredGameLoopOptions :=
  {| required_delayClampMs :=
       match delayClampMs opts with
       | Some c => c
       | None => of_Z 200
       end |}.

Inductive Effect : Type :=
| SetTimeout (delayMs : double)
| CurrentTime (reading : Z)
| StepFn (r : Reentry)
| EmitUpdate (payload : double)
| EmitGameStepDropped (overflowMs : double).

Definition invocations (es : list Effect) : nat :=
  List.length
    (filter (fun e => match e with StepFn _ => true | _ => false end) es).

Definition timeouts (es : list Effect) : list double :=
  flat_map (fun e => match e with SetTimeout d => [d] | _ => [] end) es.

Definition dropped (es : list Effect) : list double :=
  flat_map
    (fun e => match e with EmitGameStepDropped o => [o] | _ => [] end) es.

Section Loop.

Variable Env : Type.

(** The private fields of the class. *)
Record GameLoop : Type := {
  stepFn : Env -> Env * Reentry;
  stepRate : double;
  previousStepTime : double;
  residualDelayMs : double;
  delayClamp : double;
  _isRunning : bool
}.

Definition set_previousStepTime (t : double) (l : GameLoop) : GameLoop :=
  {| stepFn := stepFn l; stepRate := stepRate l; previousStepTime := t;
     residualDelayMs := residualDelayMs l; delayClamp := delayClamp l;
     _isRunning := _isRunning l |}.

Definition set_residualDelayMs (r : double) (l : GameLoop) : GameLoop :=
  {| stepFn := stepFn l; stepRate := stepRate l;
     previousStepTime := previousStepTime l;
     residualDelayMs := r; delayClamp := delayClamp l;
     _isRunning := _isRunning l |}.

Definition set_isRunning (b : bool) (l : GameLoop) : GameLoop :=
  {| stepFn := stepFn l; stepRate := stepRate l;
     previousStepTime := previousStepTime l;
     residualDelayMs := residualDelayMs l; delayClamp := delayClamp l;
     _isRunning := b |}.

Record World : Type := {
  self : GameLoop;
  closure : Env;
  timers : list double;
  log : list Effect
}.

Definition on_self (f : GameLoop -> GameLoop) (w : World) : World :=
  {| self := f (self w); closure := closure w; timers := timers w;
     log := log w |}.

Definition set_closure (s : Env) (w : World) : World :=
  {| self := self w; closure := s; timers := timers w; log := log w |}.

Definition set_timers (ts : list double) (w : World) : World :=
  {| self := self w; closure := closure w; timers := ts; log := log w |}.

Definition record (e : Effect) (w : World) : World :=
  {| self := self w; closure := closure w; timers := timers w;
     log := log w ++ [e] |}.

Local Open Scope method_scope.

Definition this : M World GameLoop := w <- get ;; ret (self w).

Definition emit (e : Effect) : M World unit := modify (record e).

Definition setTimeout (delay : double) : M World unit :=
  modify (fun w => set_timers (timers w ++ [delay]) w) ;;
  modify (record (SetTimeout delay)).

(** [currentTime()]: the reading, as a number. *)
Definition currentTime (reading : Z) : M World double :=
  modify (record (CurrentTime reading)) ;; ret (of_Z reading).

(** [get isRunning()]. *)
Definition isRunning : M World bool :=
  l <- this ;; ret (_isRunning l).

(** [get stepIntervalMs()]. *)
Definition stepIntervalMs : M World double :=
  l <- this ;; ret (div (of_Z 1000) (stepRate l)).

(** [get residualDelayAlpha()]. *)
Definition residualDelayAlpha : M World double :=
  l <- this ;;
  i <- stepIntervalMs ;;
  ret (div (residualDelayMs l) i).

(** [constructor(stepFn, stepRateHz, opts = {})]. *)
Definition constructor (step : Env -> Env * Reentry) (stepRateHz : double)
    (opts : GameLoopOptions) (now : Z) : Completion GameLoop :=
  let completeOpts := provideDefaultsForMissingOpts opts in
  Returned {| stepFn := step; stepRate := stepRateHz;
              previousStepTime := of_Z now; residualDelayMs := of_Z 0;
              delayClamp := required_delayClampMs completeOpts;
              _isRunning := false |}.

(** [stop()]. *)
Definition stop : M World unit :=
  modify (on_self (set_isRunning false)).

(** [clampResidualDelay()]. *)
Definition clampResidualDelay : M World unit :=
  l <- this ;;
  if gt (residualDelayMs l) (delayClamp l) then
    emit (EmitGameStepDropped (sub (residualDelayMs l) (delayClamp l))) ;;
    l <- this ;;
    modify (on_self (set_residualDelayMs
                       (min (residualDelayMs l) (delayClamp l))))
  else ret tt.

(** [queueNextIteration()]. *)
Definition queueNextIteration : M World unit :=
  i <- stepIntervalMs ;; setTimeout i.

(** [this.stepFn()]. *)
Definition call_stepFn : M World unit :=
  w <- get ;;
  let (s', r) := stepFn (self w) (closure w) in
  modify (set_closure s') ;;
  modify (record (StepFn r)) ;;
  match r with
  | Returns => ret tt
  | CallsStop => stop
  end.

(** The loop [while (this.residualDelayMs >= this.stepIntervalMs) { ... }]
    of [update]. *)
Definition drain_cond : M World bool :=
  l <- this ;;
  i <- stepIntervalMs ;;
  ret (ge (residualDelayMs l) i).

Definition drain_body : M World unit :=
  call_stepFn ;;
  l <- this ;;
  i <- stepIntervalMs ;;
  modify (on_self (set_residualDelayMs (sub (residualDelayMs l) i))).

Definition drain (fuel : nat) : M World unit :=
  while fuel drain_cond drain_body.

(** [update()], one scheduling cycle; [now] is the reading that
    [currentTime()] takes in it. *)
Definition update (fuel : nat) (now : Z) : M World unit :=
  l <- this ;;
  if negb (_isRunning l) then ret tt
  else
    queueNextIteration ;;
    now <- currentTime now ;;
    l <- this ;;
    modify (on_self (set_residualDelayMs
                       (add (residualDelayMs l)
                            (sub now (previousStepTime l))))) ;;
    modify (on_self (set_previousStepTime now)) ;;
    clampResidualDelay ;;
    drain fuel ;;
    alpha <- residualDelayAlpha ;;
    emit (EmitUpdate alpha).

(** The statements of [update] before its [while] loop, and those after
    it. *)
Definition prologue (now : Z) : M World unit :=
  queueNextIteration ;;
  now <- currentTime now ;;
  l <- this ;;
  modify (on_self (set_residualDelayMs
                     (add (residualDelayMs l)
                          (sub now (previousStepTime l))))) ;;
  modify (on_self (set_previousStepTime now)) ;;
  clampResidualDelay.

Definition epilogue : M World unit :=
  alpha <- residualDelayAlpha ;;
  emit (EmitUpdate alpha).

(** [start()]; [t1] is the reading stored in [previousStepTime] and [t2]
    the one taken by the cycle that [start] runs. *)
Definition start (fuel : nat) (t1 t2 : Z) : M World GameLoop :=
  stop ;;
  t1 <- currentTime t1 ;;
  modify (on_self (set_previousStepTime t1)) ;;
  modify (on_self (set_isRunning true)) ;;
  update fuel t2 ;;
  this.

(** The host delivers the oldest pending timer and its callback
    [() => this.update()] runs. *)
Definition wake (fuel : nat) (now : Z) : M World unit :=
  w <- get ;;
  match timers w with
  | [] => ret tt
  | _ :: rest => modify (set_timers rest) ;; update fuel now
  end.

(** What can happen to a loop between two cycles. *)
Inductive Action : Type :=
| Start (t1 t2 : Z)
| Stop
| Wake (now : Z).

Definition perform (fuel : nat) (a : Action) : M World unit :=
  match a with
  | Start t1 t2 => start fuel t1 t2 ;; ret tt
  | Stop => stop
  | Wake now => wake fuel now
  end.

Fixpoint run (fuel : nat) (acts : list Action) : M World unit :=
  match acts with
  | [] => ret tt
  | a :: rest => perform fuel a ;; run fuel rest
  end.

(** A loop fresh from its constructor, in a host with nothing pending. *)
Definition boot (s : Env) (l : GameLoop) : World :=
  {| self := l; closure := s; timers := []; log := [] |}.

(** The residual delay [clampResidualDelay] leaves, given the residual
    delay [r] it finds and the clamp [c]. *)
Definition clamped (r c : double) : double :=
  if gt r c then min r c else r.

(** The value of [this.stepIntervalMs] in a world. *)
Definition interval (w : World) : double :=
  div (of_Z 1000) (stepRate (self w)).

(** The world in which the [while] loop of a cycle starts. *)
Definition loop_entry (now : Z) (w : World) : World :=
  match exec (prologue now) w with
  | Some w1 => w1
  | None => w
  end.

(** The world in which the cycle run by [start()] begins. *)
Definition restarted (t1 : Z) (w : World) : World :=
  on_self (set_isRunning true)
    (on_self (set_previousStepTime (of_Z t1))
       (record (CurrentTime t1) (on_self (set_isRunning false) w))).

(** One turn of the [while] loop. *)
Definition iteration (w : World) : World :=
  match exec drain_body w with
  | Some w1 => w1
  | None => w
  end.

(** The residual delay after [k] turns of the [while] loop entered in the
    world [w]: the interval subtracted [k] times, each difference rounded. *)
Definition residual_after (k : nat) (w : World) : double :=
  Nat.iter k (fun r => sub r (interval w)) (residualDelayMs (self w)).

(** A loop that computes on whole numbers of milliseconds: its interval
    [i], its clamp [c], its reference time [p] and its residual delay [r]
    are whole numbers, the first two below [2 ^ 53]. *)
Definition whole_ms (i c p r : Z) (w : World) : Prop :=
  interval w = of_Z i /\ (0 < i < 2 ^ 53)%Z /\
  delayClamp (self w) = of_Z c /\ (0 <= c < 2 ^ 53)%Z /\
  previousStepTime (self w) = of_Z p /\ (0 <= p)%Z /\
  residualDelayMs (self w) = of_Z r /\ (0 <= r)%Z.

End Loop.

Arguments this {Env}.
Arguments emit {Env}.
Arguments setTimeout {Env}.
Arguments currentTime {Env}.
Arguments isRunning {Env}.
Arguments stepIntervalMs {Env}.
Arguments residualDelayAlpha {Env}.
Arguments stop {Env}.
Arguments clampResidualDelay {Env}.
Arguments queueNextIteration {Env}.
Arguments call_stepFn {Env}.
Arguments drain_cond {Env}.
Arguments drain_body {Env}.
Arguments drain {Env}.
Arguments update {Env}.
Arguments prologue {Env}.
Arguments epilogue {Env}.
Arguments start {Env}.
Arguments wake {Env}.
Arguments perform {Env}.
Arguments run {Env}.

(** The actions of a script that are not a call of [start()]. *)
Definition not_Start (a : Action) : Prop :=
  match a with
  | Start _ _ => False
  | Stop | Wake _ => True
  end.

(** A script whose clock readings never go back, from the reading [last],
    and stay below [bound]. *)
Fixpoint monotone (bound last : Z) (acts : list Action) : Prop :=
  match acts with
  | [] => True
  | Start t1 t2 :: rest =>
      (last <= t1 <= t2)%Z /\ (t2 < bound)%Z /\ monotone bound t2 rest
  | Stop :: rest => monotone bound last rest
  | Wake now :: rest =>
      (last <= now < bound)%Z /\ monotone bound now rest
  end.

(** The sum of a list of whole numbers. *)
Definition total (ds : list Z) : Z := fold_right Z.add 0%Z ds.

(** The ledger of a loop that computes on whole numbers of milliseconds,
    since a moment at which its log held [n0] invocations and the dropped
    overflows [d0]: its reference time is not after the reading [last], it
    holds less than one interval, it has since reported whole positive
    overflows, and the residual delay it holds, the time it has since
    turned into invocations and the time it has since reported as dropped,
    counted from its reference time, add up to [k]. *)
Definition settled {Env : Type} (i c : Z) (n0 : nat) (d0 : list double)
    (k last : Z) (w : World Env) : Prop :=
  exists (p r : Z) (ds : list Z),
    whole_ms i c p r w /\ (r < i)%Z /\ (p <= last)%Z /\
    dropped (log w) = d0 ++ map of_Z ds /\
    Forall (fun d => (0 < d)%Z) ds /\
    (n0 <= invocations (log w))%nat /\
    (r + Z.of_nat (invocations (log w) - n0) * i + total ds - p = k)%Z.

(** A world with an inert step function, nothing pending and an empty log:
    the step rate, the clamp, the reference time, the residual delay and
    the running flag are given. *)
Definition example_world (hz c : double) (t : Z) (r : double)
    (running : bool) : World unit :=
  {| self := {| stepFn := inert; stepRate := hz;
                previousStepTime := of_Z t; residualDelayMs := r;
                delayClamp := c; _isRunning := running |};
     closure := tt; timers := []; log := [] |}.

End game_loop_ieee.

(** * Facts *)

(** ** Comparisons and arithmetic of numbers *)

Module NumberFacts.

Lemma Qlt_bool_iff (a b : Q) : Qlt_bool a b = true <-> a < b.
Proof.
  unfold Qlt_bool. rewrite negb_true_iff.
  split; intro H.
  - apply Qnot_le_lt. intro Hle. apply Qle_bool_iff in Hle. congruence.
  - destruct (Qle_bool b a) eqn:E; [|reflexivity].
    apply Qle_bool_iff in E. exfalso. apply (Qlt_not_le _ _ H E).
Qed.


Lemma Qle_bool_false_iff (a b : Q) : Qle_bool a b = false <-> b < a.
Proof.
  rewrite <- Qlt_bool_iff. unfold Qlt_bool.
  destruct (Qle_bool a b); simpl; intuition congruence.
Qed.

Lemma ge_Num (a b : Q) : ge (Num a) (Num b) = true <-> b <= a.
Proof. unfold ge, le. apply Qle_bool_iff. Qed.

Lemma ge_Num_false (a b : Q) : ge (Num a) (Num b) = false <-> a < b.
Proof. unfold ge, le. apply Qle_bool_false_iff. Qed.

(** A strict comparison excludes the converse large one, [NaN] included. *)
Lemma lt_not_ge (x y : number) : lt x y = true -> ge x y = false.
Proof.
  unfold ge.
  destruct x as [a| | |], y as [b| | |]; simpl; try congruence.
  intro H. apply Qlt_bool_iff in H. now apply Qle_bool_false_iff.
Qed.

(** When [x > y] holds, [Math.min(x, y)] is [y] itself. *)
Lemma min_gt (x y : number) : gt x y = true -> min x y = y.
Proof.
  unfold gt.
  destruct x as [a| | |], y as [b| | |]; simpl; try congruence.
  intro H. apply Qlt_bool_iff in H.
  destruct (Qle_bool a b) eqn:E; [|reflexivity].
  apply Qle_bool_iff in E. exfalso. apply (Qlt_not_le _ _ H E).
Qed.

(** When [x > y] holds, [x - y] is strictly positive. *)
Lemma sub_gt_pos (x y : number) : gt x y = true -> gt (sub x y) (Num 0) = true.
Proof.
  unfold gt.
  destruct x as [a| | |], y as [b| | |]; cbn [lt sub]; try congruence.
  intro H. apply Qlt_bool_iff in H. apply Qlt_bool_iff.
  pose proof (Qred_correct (a - b)) as E. lra.
Qed.


End NumberFacts.

Import NumberFacts.

(** ** Whole intervals in a residual delay *)

Lemma floor_bounds (r i : Q) :
  0 < i ->
  inject_Z (floor (r / i)) * i <= r /\ r < (inject_Z (floor (r / i)) + 1) * i.
Proof.
  intro Hpos. unfold floor.
  pose proof (Qfloor_le (r / i)) as Hlo.
  pose proof (Qlt_floor (r / i)) as Hhi.
  rewrite inject_Z_plus in Hhi. change (inject_Z 1) with 1 in Hhi.
  assert (Hri : r / i * i == r) by (field; lra).
  split.
  - rewrite <- Hri at 2. apply Qmult_le_compat_r; [exact Hlo | lra].
  - rewrite <- Hri at 1. apply Qmult_lt_compat_r; [exact Hpos | exact Hhi].
Qed.

Lemma turns_bounds (r i : Q) :
  0 < i ->
  r < (inject_Z (Z.of_nat (turns r i)) + 1) * i /\
  (turns r i = 0%nat \/ inject_Z (Z.of_nat (turns r i)) * i <= r).
Proof.
  intro Hpos. destruct (floor_bounds r Hpos) as [Hlo Hhi]. unfold turns.
  destruct (Z_lt_le_dec (floor (r / i)) 0) as [Hneg|Hnn].
  - assert (E : Z.to_nat (floor (r / i)) = 0%nat) by lia.
    rewrite E. split; [|now left].
    change (inject_Z (Z.of_nat 0)) with 0.
    assert (H1 : inject_Z (floor (r / i)) + 1 <= 0).
    { change 1 with (inject_Z 1). rewrite <- inject_Z_plus.
      change 0 with (inject_Z 0). rewrite <- Zle_Qle. lia. }
    nra.
  - rewrite Z2Nat.id by exact Hnn. split; [exact Hhi | right; exact Hlo].
Qed.

(** ** The [while] loop *)

Module WhileFacts.

Section Loop.

Variables (W : Type) (cond : M W bool) (body : M W unit).

(** The condition is a pure test and the body always returns. *)
Variables (test : W -> bool) (turn : W -> W).
Hypothesis cond_eq : forall w, cond w = Some (test w, w).
Hypothesis body_eq : forall w, body w = Some (tt, turn w).

Lemma while_S (fuel : nat) (w : W) :
  while (S fuel) cond body w =
  if test w then while fuel cond body (turn w) else Some (tt, w).
Proof.
  cbn [while]. unfold bind. rewrite cond_eq.
  destruct (test w); [|reflexivity]. now rewrite body_eq.
Qed.

(** More fuel never changes the outcome of a loop that has finished. *)
Lemma while_fuel_mono (fuel fuel' : nat) (w : W) (x : unit * W) :
  (fuel <= fuel')%nat ->
  while fuel cond body w = Some x -> while fuel' cond body w = Some x.
Proof.
  revert fuel' w. induction fuel as [|fuel IH]; intros fuel' w Hle H.
  - discriminate.
  - destruct fuel' as [|fuel']; [lia|].
    rewrite while_S in *.
    destruct (test w); [|exact H].
    apply IH; [lia | exact H].
Qed.

(** A preorder that every turn respects relates the worlds before and
    after a finished loop. *)
Lemma while_preserves (R : W -> W -> Prop) :
  (forall w, R w w) ->
  (forall w1 w2 w3, R w1 w2 -> R w2 w3 -> R w1 w3) ->
  (forall w, R w (turn w)) ->
  forall (fuel : nat) (w w' : W),
    while fuel cond body w = Some (tt, w') -> R w w'.
Proof.
  intros Hrefl Htrans Hturn fuel.
  induction fuel as [|fuel IH]; intros w w' H.
  - discriminate.
  - rewrite while_S in H. destruct (test w).
    + apply Htrans with (turn w); [apply Hturn | now apply IH].
    + injection H as <-. apply Hrefl.
Qed.

(** A loop that has finished leaves a world in which its test fails. *)
Lemma while_exit (fuel : nat) :
  forall w w' : W, while fuel cond body w = Some (tt, w') -> test w' = false.
Proof.
  induction fuel as [|fuel IH]; intros w w' H.
  - discriminate.
  - rewrite while_S in H. destruct (test w) eqn:T.
    + now apply IH with (turn w).
    + now injection H as <-.
Qed.

(** The loop makes exactly [n] turns when its test holds before each of the
    first [n] turns and fails after them. *)
Lemma while_iter (n : nat) :
  forall (w : W) (fuel : nat),
    (forall k, (k < n)%nat -> test (Nat.iter k turn w) = true) ->
    test (Nat.iter n turn w) = false ->
    (n < fuel)%nat ->
    while fuel cond body w = Some (tt, Nat.iter n turn w).
Proof.
  induction n as [|n IH]; intros w fuel Hbefore Hafter Hfuel.
  - destruct fuel as [|fuel]; [lia|].
    rewrite while_S. cbn [Nat.iter nat_rect] in Hafter. now rewrite Hafter.
  - destruct fuel as [|fuel]; [lia|].
    assert (H0 : test w = true) by (apply (Hbefore 0%nat); lia).
    rewrite while_S, H0.
    rewrite Nat.iter_succ_r. apply IH; [|now rewrite <- Nat.iter_succ_r | lia].
    intros k Hk. rewrite <- Nat.iter_succ_r. apply Hbefore. lia.
Qed.

(** A loop whose test holds in a set of worlds that no turn leaves never
    ends once it is in that set. *)
Lemma while_stuck (P : W -> Prop) :
  (forall w, P w -> test w = true /\ P (turn w)) ->
  forall (fuel : nat) (w : W), P w -> while fuel cond body w = None.
Proof.
  intros Hstuck fuel. induction fuel as [|fuel IH]; intros w Hw.
  - reflexivity.
  - destruct (Hstuck w Hw) as [Ht Hn]. rewrite while_S, Ht. now apply IH.
Qed.

Section Counting.

(** The test compares a residual delay with an interval; a turn subtracts
    the interval once and is counted once. *)
Variables (residual interval : W -> number) (count : W -> nat).
Hypothesis test_eq : forall w, test w = ge (residual w) (interval w).
Hypothesis turn_residual :
  forall w, residual (turn w) = sub (residual w) (interval w).
Hypothesis turn_interval : forall w, interval (turn w) = interval w.
Hypothesis turn_count : forall w, count (turn w) = S (count w).

(** With a positive finite interval [i] and a finite residual delay [r]
    below [(n + 1) * i] and, unless [n] is zero, at least [n * i], the loop
    makes exactly [n] turns. *)
Lemma while_turns (n : nat) :
  forall (w : W) (r i : Q) (fuel : nat),
    interval w = Num i -> 0 < i ->
    residual w = Num r ->
    r < (inject_Z (Z.of_nat n) + 1) * i ->
    (n = 0%nat \/ inject_Z (Z.of_nat n) * i <= r) ->
    (n < fuel)%nat ->
    exists (w' : W) (r' : Q),
      while fuel cond body w = Some (tt, w') /\
      residual w' = Num r' /\
      r' == r - inject_Z (Z.of_nat n) * i /\
      count w' = (count w + n)%nat.
Proof.
  induction n as [|n IH]; intros w r i fuel Hi Hpos Hr Hup Hlow Hfuel.
  - destruct fuel as [|fuel]; [lia|].
    exists w, r. rewrite while_S, test_eq, Hr, Hi.
    change (inject_Z (Z.of_nat 0)) with 0 in *.
    assert (Hlt : r < i) by lra.
    apply ge_Num_false in Hlt. rewrite Hlt.
    repeat split; [lra | lia].
  - destruct fuel as [|fuel]; [lia|].
    destruct Hlow as [Hlow|Hlow]; [discriminate|].
    rewrite Nat2Z.inj_succ, <- Z.add_1_r, inject_Z_plus in Hup, Hlow.
    change (inject_Z 1) with 1 in Hup, Hlow.
    assert (Hn : 0 <= inject_Z (Z.of_nat n)).
    { change 0 with (inject_Z 0). rewrite <- Zle_Qle. lia. }
    assert (Hge : i <= r) by nra.
    rewrite while_S, test_eq, Hr, Hi.
    apply ge_Num in Hge. rewrite Hge.
    pose proof (Qred_correct (r - i)) as Hred.
    destruct (IH (turn w) (Qred (r - i)) i fuel)
      as (w' & r' & D & R & E & C).
    + now rewrite turn_interval.
    + exact Hpos.
    + now rewrite turn_residual, Hr, Hi.
    + rewrite Hred. lra.
    + destruct n as [|n]; [now left|right]. rewrite Hred. lra.
    + lia.
    + exists w', r'. repeat split; [exact D | exact R | |].
      * rewrite E, Hred, Nat2Z.inj_succ, <- Z.add_1_r, inject_Z_plus.
        change (inject_Z 1) with 1. lra.
      * rewrite C, turn_count. lia.
Qed.

(** The loop makes [turns r i] turns and leaves less than one interval. *)
Lemma while_floor (w : W) (r i : Q) (fuel : nat) :
  interval w = Num i -> 0 < i ->
  residual w = Num r ->
  (turns r i < fuel)%nat ->
  exists (w' : W) (r' : Q),
    while fuel cond body w = Some (tt, w') /\
    residual w' = Num r' /\
    r' == r - inject_Z (Z.of_nat (turns r i)) * i /\
    r' < i /\
    (0 <= r -> 0 <= r') /\
    count w' = (count w + turns r i)%nat.
Proof.
  intros Hi Hpos Hr Hfuel.
  destruct (turns_bounds r Hpos) as [Hup Hlow].
  destruct (while_turns Hi Hpos Hr Hup Hlow Hfuel)
    as (w' & r' & D & R & E & C).
  exists w', r'. repeat split; try assumption.
  - rewrite E. lra.
  - intro Hnn. rewrite E. destruct Hlow as [Hz|Hlow]; [|lra].
    rewrite Hz. change (inject_Z (Z.of_nat 0)) with 0. lra.
Qed.

(** With an interval that is not positive, a loop that starts never ends:
    each turn leaves a residual delay that still passes the test. *)
Lemma while_diverges (fuel : nat) :
  forall (w : W) (r i : Q),
    interval w = Num i -> i <= 0 ->
    residual w = Num r -> i <= r ->
    while fuel cond body w = None.
Proof.
  induction fuel as [|fuel IH]; intros w r i Hi Hneg Hr Hge.
  - reflexivity.
  - rewrite while_S, test_eq, Hr, Hi.
    pose proof Hge as Hge'. apply ge_Num in Hge'. rewrite Hge'.
    pose proof (Qred_correct (r - i)) as Hred.
    apply (IH (turn w) (Qred (r - i)) i).
    + now rewrite turn_interval.
    + exact Hneg.
    + now rewrite turn_residual, Hr, Hi.
    + rewrite Hred. lra.
Qed.

End Counting.

End Loop.

End WhileFacts.

(** ** [src/src/game-loop.ts]: method bodies as transformations of the world *)

Module GameLoopFacts.

Import game_loop.

Section Facts.

Variable Env : Type.
Implicit Types w : World Env.

Local Open Scope method_scope.

Lemma stop_eq w : stop w = Some (tt, on_self (set_isRunning false) w).
Proof. reflexivity. Qed.

Lemma clampResidualDelay_eq w :
  clampResidualDelay w =
  Some (tt,
        if gt (residualDelayMs (self w)) (delayClamp (self w))
        then on_self (set_residualDelayMs
                        (min (residualDelayMs (self w)) (delayClamp (self w))))
               (record (EmitGameStepDropped
                          (sub (residualDelayMs (self w)) (delayClamp (self w))))
                  w)
        else w).
Proof.
  cbv [clampResidualDelay bind this get ret].
  destruct (gt (residualDelayMs (self w)) (delayClamp (self w))); reflexivity.
Qed.

Lemma update_stopped (fuel : nat) (now : Z) w :
  _isRunning (self w) = false -> update fuel now w = Some (tt, w).
Proof.
  intro H. cbv [update bind this get ret].
  rewrite H. reflexivity.
Qed.

Lemma update_running (fuel : nat) (now : Z) w :
  _isRunning (self w) = true ->
  update fuel now w = (prologue now ;; drain fuel ;; epilogue) w.
Proof.
  intro H.
  cbv [update prologue bind this get ret queueNextIteration stepIntervalMs
       setTimeout modify currentTime clampResidualDelay emit].
  rewrite H. cbn [negb].
  destruct (gt _ _); reflexivity.
Qed.

Lemma prologue_total (now : Z) w :
  prologue now w = Some (tt, loop_entry now w).
Proof.
  unfold loop_entry, exec.
  destruct (prologue now w) as [[[] w1]|] eqn:E; [reflexivity|].
  revert E. cbv [prologue bind this get ret queueNextIteration stepIntervalMs
                 setTimeout modify currentTime].
  rewrite clampResidualDelay_eq. discriminate.
Qed.

Lemma update_from_loop_entry (fuel : nat) (now : Z) w :
  _isRunning (self w) = true ->
  update fuel now w = (drain fuel ;; epilogue) (loop_entry now w).
Proof.
  intro H. rewrite (update_running fuel now w H).
  unfold bind at 1. rewrite prologue_total. reflexivity.
Qed.

Lemma epilogue_eq w :
  epilogue w =
  Some (tt, record (EmitUpdate (div (residualDelayMs (self w)) (interval w))) w).
Proof. reflexivity. Qed.

Lemma residualDelayAlpha_eq w :
  residualDelayAlpha w = Some (div (residualDelayMs (self w)) (interval w), w).
Proof. reflexivity. Qed.

(** *** The world at the entry of the [while] loop *)

Lemma loop_entry_eq (now : Z) w :
  loop_entry now w =
  let i := interval w in
  let r := accumulated now w in
  let c := delayClamp (self w) in
  let w0 :=
    on_self (set_previousStepTime now)
      (on_self (set_residualDelayMs r)
         (record (CurrentTime now)
            (record (SetTimeout i) (set_timers (timers w ++ [i]) w)))) in
  if gt r c
  then on_self (set_residualDelayMs (min r c))
         (record (EmitGameStepDropped (sub r c)) w0)
  else w0.
Proof.
  cbv [loop_entry exec prologue bind this get ret queueNextIteration
       stepIntervalMs setTimeout modify currentTime clampResidualDelay emit].
  cbn [self on_self record set_timers residualDelayMs delayClamp
       set_residualDelayMs set_previousStepTime].
  fold (interval w) (accumulated now w).
  destruct (gt (accumulated now w) (delayClamp (self w))); reflexivity.
Qed.

Ltac by_loop_entry_eq :=
  rewrite loop_entry_eq; cbv zeta; destruct (gt _ _); reflexivity.

Lemma loop_entry_timers (now : Z) w :
  timers (loop_entry now w) = timers w ++ [interval w].
Proof. by_loop_entry_eq. Qed.

Lemma loop_entry_stepRate (now : Z) w :
  stepRate (self (loop_entry now w)) = stepRate (self w).
Proof. by_loop_entry_eq. Qed.

Lemma loop_entry_interval (now : Z) w :
  interval (loop_entry now w) = interval w.
Proof. unfold interval. now rewrite loop_entry_stepRate. Qed.



Lemma loop_entry_residualDelayMs (now : Z) w :
  residualDelayMs (self (loop_entry now w)) =
  clamped (accumulated now w) (delayClamp (self w)).
Proof. unfold clamped. by_loop_entry_eq. Qed.

Lemma loop_entry_log (now : Z) w :
  log (loop_entry now w) =
  log w ++ SetTimeout (interval w) :: CurrentTime now ::
    (if gt (accumulated now w) (delayClamp (self w))
     then [EmitGameStepDropped (sub (accumulated now w) (delayClamp (self w)))]
     else []).
Proof.
  rewrite loop_entry_eq. cbv zeta.
  destruct (gt _ _); cbn [log on_self record];
    repeat rewrite <- app_assoc; reflexivity.
Qed.

(** When the clamp triggers the loop starts from the clamp itself. *)
Lemma clamped_gt (r c : number) : gt r c = true -> clamped r c = c.
Proof. intro H. unfold clamped. rewrite H. now apply min_gt. Qed.

Lemma clamped_not_gt (r c : number) : gt r c = false -> clamped r c = r.
Proof. intro H. unfold clamped. now rewrite H. Qed.

(** *** Counting in logs *)

Lemma invocations_app (es fs : list Effect) :
  invocations (es ++ fs) = (invocations es + invocations fs)%nat.
Proof. unfold invocations. now rewrite filter_app, length_app. Qed.

Lemma timeouts_app (es fs : list Effect) :
  timeouts (es ++ fs) = timeouts es ++ timeouts fs.
Proof. unfold timeouts. apply flat_map_app. Qed.

Lemma dropped_app (es fs : list Effect) :
  dropped (es ++ fs) = dropped es ++ dropped fs.
Proof. unfold dropped. apply flat_map_app. Qed.

Lemma timeouts_map_StepFn (rs : list Reentry) : timeouts (map StepFn rs) = [].
Proof. induction rs as [|r rs IH]; cbn; [reflexivity|exact IH]. Qed.

Lemma dropped_map_StepFn (rs : list Reentry) : dropped (map StepFn rs) = [].
Proof. induction rs as [|r rs IH]; cbn; [reflexivity|exact IH]. Qed.

(** *** The [while] loop of [update] *)

Lemma drain_cond_eq w :
  drain_cond w = Some (ge (residualDelayMs (self w)) (interval w), w).
Proof. reflexivity. Qed.

Lemma iteration_eq w :
  iteration w =
  let sr := stepFn (self w) (closure w) in
  let w1 := record (StepFn (snd sr)) (set_closure (fst sr) w) in
  let w2 := match snd sr with
            | Returns => w1
            | CallsStop => on_self (set_isRunning false) w1
            end in
  on_self (set_residualDelayMs (sub (residualDelayMs (self w)) (interval w))) w2.
Proof.
  cbv [iteration exec drain_body call_stepFn bind this get ret modify stop
       stepIntervalMs interval].
  destruct (stepFn (self w) (closure w)) as [s' []]; reflexivity.
Qed.

Lemma drain_body_eq w : drain_body w = Some (tt, iteration w).
Proof.
  cbv [iteration exec drain_body call_stepFn bind this get ret modify stop
       stepIntervalMs].
  destruct (stepFn (self w) (closure w)) as [s' []]; reflexivity.
Qed.

Ltac by_iteration_eq w :=
  rewrite iteration_eq; cbv zeta;
  destruct (snd (stepFn (self w) (closure w))); reflexivity.

Lemma iteration_residualDelayMs w :
  residualDelayMs (self (iteration w)) =
  sub (residualDelayMs (self w)) (interval w).
Proof. by_iteration_eq w. Qed.

Lemma iteration_stepRate w : stepRate (self (iteration w)) = stepRate (self w).
Proof. by_iteration_eq w. Qed.

Lemma iteration_interval w : interval (iteration w) = interval w.
Proof. unfold interval. now rewrite iteration_stepRate. Qed.



Lemma drain_S (fuel : nat) w :
  drain (S fuel) w =
  if ge (residualDelayMs (self w)) (interval w)
  then drain fuel (iteration w)
  else Some (tt, w).
Proof. exact (WhileFacts.while_S _ _ _ _ drain_cond_eq drain_body_eq fuel w). Qed.

Lemma drain_fuel_mono (fuel fuel' : nat) w (x : unit * World Env) :
  (fuel <= fuel')%nat -> drain fuel w = Some x -> drain fuel' w = Some x.
Proof. exact (WhileFacts.while_fuel_mono _ _ _ _ drain_cond_eq drain_body_eq w (x:=x)). Qed.

Lemma framed_refl w : framed w w.
Proof.
  constructor; try reflexivity; [tauto|].
  exists []. now rewrite app_nil_r.
Qed.

Lemma framed_trans (w1 w2 w3 : World Env) :
  framed w1 w2 -> framed w2 w3 -> framed w1 w3.
Proof.
  intros [A1 A2 A3 A4 A5 A6 [rs A7]] [B1 B2 B3 B4 B5 B6 [rs' B7]].
  constructor; try congruence; [tauto|].
  exists (rs ++ rs'). rewrite B7, A7, map_app. now rewrite app_assoc.
Qed.

Lemma framed_iteration w : framed w (iteration w).
Proof.
  rewrite iteration_eq. cbv zeta.
  destruct (stepFn (self w) (closure w)) as [s' r].
  constructor; cbn [fst snd];
    try (destruct r; reflexivity).
  - destruct r; cbn; [tauto | discriminate].
  - exists [r]. destruct r; reflexivity.
Qed.

Lemma framed_drain (fuel : nat) w (w' : World Env) :
  drain fuel w = Some (tt, w') -> framed w w'.
Proof.
  apply (WhileFacts.while_preserves _ _ _ _ drain_cond_eq drain_body_eq
           _ framed_refl framed_trans framed_iteration).
Qed.


Lemma framed_dropped w (w' : World Env) :
  framed w w' -> dropped (log w') = dropped (log w).
Proof.
  intros [_ _ _ _ _ _ [rs H]].
  now rewrite H, dropped_app, dropped_map_StepFn, app_nil_r.
Qed.


Lemma drain_skipped w (fuel : nat) :
  ge (residualDelayMs (self w)) (interval w) = false ->
  drain (S fuel) w = Some (tt, w).
Proof. intro H. now rewrite drain_S, H. Qed.

(** With a step rate that is negative, hence a negative interval, a loop
    that starts from a residual delay that is not negative never ends. *)
Lemma drain_diverges w (r i : Q) (fuel : nat) :
  interval w = Num i -> i <= 0 ->
  residualDelayMs (self w) = Num r -> i <= r ->
  drain fuel w = None.
Proof.
  apply (WhileFacts.while_diverges _ _ _ _ drain_cond_eq drain_body_eq
           (fun w => residualDelayMs (self w)) (@interval Env));
    [reflexivity | apply iteration_residualDelayMs | apply iteration_interval].
Qed.

(** *** A scheduling cycle *)

(** A cycle that passes the guard and returns is the prologue, a finished
    loop and the emission of the update notification. *)
Lemma update_returns (fuel : nat) (now : Z) w (w' : World Env) :
  _isRunning (self w) = true ->
  update fuel now w = Some (tt, w') ->
  exists wd : World Env,
    drain fuel (loop_entry now w) = Some (tt, wd) /\
    w' = record (EmitUpdate (div (residualDelayMs (self wd)) (interval wd))) wd.
Proof.
  intros Hrun H. rewrite (update_from_loop_entry fuel now w Hrun) in H.
  unfold bind in H.
  destruct (drain fuel (loop_entry now w)) as [[[] wd]|]; [|discriminate].
  exists wd. split; [reflexivity|].
  rewrite epilogue_eq in H. now inversion H.
Qed.

Lemma update_of_drain (fuel : nat) (now : Z) w (wd : World Env) :
  _isRunning (self w) = true ->
  drain fuel (loop_entry now w) = Some (tt, wd) ->
  update fuel now w =
  Some (tt, record (EmitUpdate (div (residualDelayMs (self wd)) (interval wd))) wd).
Proof.
  intros Hrun H. rewrite (update_from_loop_entry fuel now w Hrun).
  unfold bind. rewrite H. apply epilogue_eq.
Qed.

Lemma update_fuel_mono (fuel fuel' : nat) (now : Z) w (x : unit * World Env) :
  (fuel <= fuel')%nat ->
  update fuel now w = Some x -> update fuel' now w = Some x.
Proof.
  intros Hle H. destruct (_isRunning (self w)) eqn:Hrun.
  - rewrite (update_from_loop_entry fuel' now w Hrun).
    rewrite (update_from_loop_entry fuel now w Hrun) in H.
    unfold bind in *.
    destruct (drain fuel (loop_entry now w)) as [y|] eqn:D;
      [|discriminate H].
    now rewrite (drain_fuel_mono _ Hle D).
  - rewrite (update_stopped fuel' now w Hrun).
    now rewrite (update_stopped fuel now w Hrun) in H.
Qed.


Lemma loop_entry_invocations (now : Z) w :
  invocations (log (loop_entry now w)) = invocations (log w).
Proof.
  rewrite loop_entry_log, invocations_app.
  destruct (gt _ _); cbn; lia.
Qed.

Lemma loop_entry_timeouts (now : Z) w :
  timeouts (log (loop_entry now w)) = timeouts (log w) ++ [interval w].
Proof.
  rewrite loop_entry_log, timeouts_app.
  destruct (gt _ _); reflexivity.
Qed.

Lemma loop_entry_dropped (now : Z) w :
  dropped (log (loop_entry now w)) =
  dropped (log w) ++
    (if gt (accumulated now w) (delayClamp (self w))
     then [sub (accumulated now w) (delayClamp (self w))]
     else []).
Proof.
  rewrite loop_entry_log, dropped_app.
  destruct (gt _ _); reflexivity.
Qed.

(** *** [start()], wake-ups and scripts *)

Lemma start_eq (fuel : nat) (t1 t2 : Z) w :
  start fuel t1 t2 w = (update fuel t2 ;; this) (restarted t1 w).
Proof. reflexivity. Qed.

Lemma wake_eq (fuel : nat) (now : Z) w :
  wake fuel now w =
  match timers w with
  | [] => Some (tt, w)
  | _ :: rest => update fuel now (set_timers rest w)
  end.
Proof.
  cbv [wake bind get ret modify]. destruct (timers w); reflexivity.
Qed.

Lemma start_fuel_mono (fuel fuel' : nat) (t1 t2 : Z) w
    (x : GameLoop Env * World Env) :
  (fuel <= fuel')%nat ->
  start fuel t1 t2 w = Some x -> start fuel' t1 t2 w = Some x.
Proof.
  intros Hle H. rewrite start_eq in *. unfold bind in *.
  destruct (update fuel t2 (restarted t1 w)) as [y|] eqn:U; [|discriminate H].
  now rewrite (update_fuel_mono _ _ Hle U).
Qed.

Lemma wake_fuel_mono (fuel fuel' : nat) (now : Z) w (x : unit * World Env) :
  (fuel <= fuel')%nat ->
  wake fuel now w = Some x -> wake fuel' now w = Some x.
Proof.
  intros Hle H. rewrite wake_eq in *.
  destruct (timers w); [exact H|].
  exact (update_fuel_mono _ _ Hle H).
Qed.

Lemma perform_fuel_mono (fuel fuel' : nat) (a : Action) w
    (x : unit * World Env) :
  (fuel <= fuel')%nat ->
  perform fuel a w = Some x -> perform fuel' a w = Some x.
Proof.
  intros Hle H. destruct a as [t1 t2| |now]; cbn [perform] in *.
  - unfold bind in *.
    destruct (start fuel t1 t2 w) as [y|] eqn:E; [|discriminate H].
    now rewrite (@start_fuel_mono fuel fuel' t1 t2 w y Hle E).
  - exact H.
  - exact (@wake_fuel_mono fuel fuel' now w x Hle H).
Qed.

Lemma run_fuel_mono (fuel fuel' : nat) (acts : list Action) :
  (fuel <= fuel')%nat ->
  forall w (x : unit * World Env),
    run fuel acts w = Some x -> run fuel' acts w = Some x.
Proof.
  intro Hle. induction acts as [|a acts IH]; intros w x H.
  - exact H.
  - cbn [run] in *. unfold bind in *.
    destruct (perform fuel a w) as [[[] w1]|] eqn:E; [|discriminate H].
    rewrite (@perform_fuel_mono fuel fuel' a w _ Hle E). now apply IH.
Qed.

Lemma run_cons (fuel : nat) (a : Action) (acts : list Action) w
    (w1 : World Env) :
  perform fuel a w = Some (tt, w1) ->
  run fuel (a :: acts) w = run fuel acts w1.
Proof. intro H. cbn [run]. unfold bind. now rewrite H. Qed.

(** *** The residual delay stays within one interval *)

Section Sane.

Variables hz c : Q.
Hypothesis hz_pos : 0 < hz.
Hypothesis c_nonneg : 0 <= c.










End Sane.

(** *** A stopped loop *)

Lemma set_isRunning_same (l : GameLoop Env) :
  _isRunning l = false -> set_isRunning false l = l.
Proof. destruct l as [f r p d c b]. cbn. now intros ->. Qed.

Lemma stop_stopped w :
  _isRunning (self w) = false -> stop w = Some (tt, w).
Proof.
  intro H. rewrite stop_eq. destruct w as [l s ts es]. unfold on_self.
  cbn [self closure timers log] in *. now rewrite (set_isRunning_same _ H).
Qed.

(** While the flag is cleared, an action other than [start()] invokes
    nothing, emits nothing and arms no timer; a wake-up only leaves the
    queue. *)
Lemma perform_stopped (fuel : nat) (a : Action) w :
  _isRunning (self w) = false -> not_Start a ->
  exists w' : World Env,
    perform fuel a w = Some (tt, w') /\
    self w' = self w /\ closure w' = closure w /\ log w' = log w /\
    exists delivered, timers w = delivered ++ timers w'.
Proof.
  intros Hrun Ha. destruct a as [t1 t2| |now]; [destruct Ha| |].
  - exists w. cbn [perform]. rewrite (stop_stopped _ Hrun).
    do 4 (split; [reflexivity|]). now exists [].
  - cbn [perform]. rewrite wake_eq. destruct (timers w) as [|t ts] eqn:T.
    + exists w. do 4 (split; [reflexivity|]). exists []. now rewrite T.
    + exists (set_timers ts w).
      rewrite (update_stopped fuel now (set_timers ts w) Hrun).
      do 4 (split; [reflexivity|]). now exists [t].
Qed.

Lemma run_stopped (fuel : nat) (acts : list Action) :
  Forall not_Start acts ->
  forall w,
    _isRunning (self w) = false ->
    exists w' : World Env,
      run fuel acts w = Some (tt, w') /\
      self w' = self w /\ closure w' = closure w /\ log w' = log w /\
      exists delivered, timers w = delivered ++ timers w'.
Proof.
  induction 1 as [|a acts Ha Hacts IH]; intros w Hrun.
  - exists w. do 4 (split; [reflexivity|]). now exists [].
  - destruct (perform_stopped fuel a w Hrun Ha)
      as (w1 & P & S1 & C1 & L1 & d1 & T1).
    assert (Hrun1 : _isRunning (self w1) = false) by now rewrite S1.
    destruct (IH w1 Hrun1) as (w' & R & S2 & C2 & L2 & d2 & T2).
    exists w'. rewrite (@run_cons fuel a acts w w1 P).
    do 4 (split; [congruence|]).
    exists (d1 ++ d2). now rewrite T1, T2, app_assoc.
Qed.

(** The [while] loop never reads the running flag: clearing the flag before
    the loop or after it gives the same world. *)
Lemma iteration_stop w :
  iteration (on_self (set_isRunning false) w) =
  on_self (set_isRunning false) (iteration w).
Proof.
  rewrite !iteration_eq. cbv zeta.
  cbn [self closure on_self stepFn set_isRunning].
  destruct (stepFn (self w) (closure w)) as [s' []]; reflexivity.
Qed.

Lemma drain_stop (fuel : nat) :
  forall w,
    drain fuel (on_self (set_isRunning false) w) =
    match drain fuel w with
    | Some (u, w') => Some (u, on_self (set_isRunning false) w')
    | None => None
    end.
Proof.
  induction fuel as [|fuel IH]; intro w.
  - reflexivity.
  - rewrite !drain_S.
    change (residualDelayMs (self (on_self (set_isRunning false) w)))
      with (residualDelayMs (self w)).
    change (interval (on_self (set_isRunning false) w)) with (interval w).
    destruct (ge (residualDelayMs (self w)) (interval w)); [|reflexivity].
    rewrite iteration_stop. apply IH.
Qed.

End Facts.

End GameLoopFacts.

(** ** [src/unnamed/part_000] *)

Module Part000Facts.

Import part_000.

Section Facts.

Variable Env : Type.
Implicit Types w : World Env.

Lemma p0_invocations_app (es fs : list Effect) :
  invocations (es ++ fs) = (invocations es + invocations fs)%nat.
Proof. unfold invocations. now rewrite filter_app, length_app. Qed.

Lemma p0_clampResidualDelay_eq w :
  clampResidualDelay w =
  Some (tt,
        if gt (residualDelay (self w)) (delayClamp (self w))
        then on_self (set_residualDelay
                        (min (residualDelay (self w)) (delayClamp (self w))))
               (record (EmitGameStepDropped
                          (sub (residualDelay (self w)) (delayClamp (self w))))
                  w)
        else w).
Proof.
  cbv [clampResidualDelay bind this get ret].
  destruct (gt (residualDelay (self w)) (delayClamp (self w))); reflexivity.
Qed.

Lemma p0_drain_cond_eq w :
  drain_cond w = Some (ge (residualDelay (self w)) (interval w), w).
Proof. reflexivity. Qed.

Lemma p0_iteration_eq w :
  iteration w =
  let sr := stepHandler (self w) (closure w) in
  let w1 := record (StepHandler (snd sr)) (set_closure (fst sr) w) in
  let w2 :=
    match snd sr with
    | Returns => w1
    | CallsStop =>
        record (ClearInterval (tickIntervalId (self w)))
          (set_intervals
             (match tickIntervalId (self w) with
              | Some id =>
                  filter (fun t => negb (Nat.eqb (fst t) id)) (intervals w)
              | None => intervals w
              end) (next_id w) w1)
    end in
  on_self (set_residualDelay (sub (residualDelay (self w)) (interval w))) w2.
Proof.
  cbv [iteration exec drain_body call_stepHandler bind this get ret modify
       stop clearInterval msPerStep interval].
  destruct (stepHandler (self w) (closure w)) as [s' []]; reflexivity.
Qed.

Lemma p0_drain_body_eq w : drain_body w = Some (tt, iteration w).
Proof.
  cbv [iteration exec drain_body call_stepHandler bind this get ret modify
       stop clearInterval msPerStep].
  destruct (stepHandler (self w) (closure w)) as [s' []]; reflexivity.
Qed.

Ltac by_p0_iteration_eq w :=
  rewrite p0_iteration_eq; cbv zeta;
  destruct (snd (stepHandler (self w) (closure w))); reflexivity.

Lemma p0_iteration_residualDelay w :
  residualDelay (self (iteration w)) =
  sub (residualDelay (self w)) (interval w).
Proof. by_p0_iteration_eq w. Qed.

Lemma p0_iteration_stepRate w :
  stepRate (self (iteration w)) = stepRate (self w).
Proof. by_p0_iteration_eq w. Qed.

Lemma p0_iteration_interval w : interval (iteration w) = interval w.
Proof. unfold interval. now rewrite p0_iteration_stepRate. Qed.

Lemma p0_iteration_invocations w :
  invocations (log (iteration w)) = S (invocations (log w)).
Proof.
  rewrite p0_iteration_eq. cbv zeta.
  destruct (snd (stepHandler (self w) (closure w)));
    cbn [log on_self record set_intervals set_closure];
    rewrite ?p0_invocations_app; cbn; lia.
Qed.

(** The loop of this variant makes the same number of turns. *)
Lemma p0_drain_floor w (r i : Q) (fuel : nat) :
  interval w = Num i -> 0 < i ->
  residualDelay (self w) = Num r ->
  (turns r i < fuel)%nat ->
  exists (w' : World Env) (r' : Q),
    drain fuel w = Some (tt, w') /\
    residualDelay (self w') = Num r' /\
    r' == r - inject_Z (Z.of_nat (turns r i)) * i /\
    r' < i /\
    (0 <= r -> 0 <= r') /\
    invocations (log w') = (invocations (log w) + turns r i)%nat.
Proof.
  apply (WhileFacts.while_floor _ _ _ _ p0_drain_cond_eq p0_drain_body_eq
           (fun w => residualDelay (self w)) (@interval Env)
           (fun w => invocations (log w)));
    [reflexivity | apply p0_iteration_residualDelay
     | apply p0_iteration_interval | apply p0_iteration_invocations].
Qed.

(** [start()] arms one interval timer whose period is the step rate in
    hertz, not the interval in milliseconds. *)
Lemma p0_start_eq (now : Z) w :
  start now w =
  Some (tt,
        let cleared :=
          match tickIntervalId (self w) with
          | Some id => filter (fun t => negb (Nat.eqb (fst t) id)) (intervals w)
          | None => intervals w
          end in
        let id := next_id w in
        on_self (set_previousStepTime now)
          (record (CurrentTime now)
             (on_self (set_tickIntervalId (Some id))
                (record (SetInterval id (stepRate (self w)))
                   (set_intervals (cleared ++ [(id, stepRate (self w))]) (S id)
                      (record (ClearInterval (tickIntervalId (self w))) w)))))).
Proof. reflexivity. Qed.

(** [stop()] clears the interval timer and leaves [tickIntervalId] as it
    is, so that [isRunning()] keeps answering [true] once the loop has been
    started. *)
Lemma p0_stop_eq w :
  stop w =
  Some (tt,
        record (ClearInterval (tickIntervalId (self w)))
          (set_intervals
             (match tickIntervalId (self w) with
              | Some id =>
                  filter (fun t => negb (Nat.eqb (fst t) id)) (intervals w)
              | None => intervals w
              end) (next_id w) w)).
Proof. reflexivity. Qed.

Lemma p0_isRunning_after_stop w (w' : World Env) (b : bool) :
  stop w = Some (tt, w') ->
  isRunning w = Some (b, w) -> isRunning w' = Some (b, w').
Proof.
  rewrite p0_stop_eq. intros [= <-]. cbv [isRunning bind this get ret].
  cbn [self record set_intervals]. intros [= <-]. reflexivity.
Qed.

(** A loop of this variant fresh from its constructor is not running. *)
Lemma p0_fresh_not_running (step : Env -> Env * Reentry) (hz : number)
    (opts : GameLoopOptions) (s : Env) :
  exists l : GameLoop Env,
    constructor step hz opts = Returned l /\
    isRunning (boot s l) = Some (false, boot s l).
Proof. eexists. split; reflexivity. Qed.

End Facts.

(** Started and stopped at once, a loop of this variant has no timer left
    and still reports that it is running. *)
Lemma p0_stopped_still_running :
  forall l : GameLoop unit,
    constructor inert (Num 100) no_opts = Returned l ->
    exists w1 w2 : World unit,
      start 0 (boot tt l) = Some (tt, w1) /\
      intervals w1 = [(1%nat, Num 100)] /\
      stop w1 = Some (tt, w2) /\
      intervals w2 = [] /\
      isRunning w2 = Some (true, w2).
Proof.
  intros l [= <-]. eexists. eexists.
  split; [reflexivity|]. split; [reflexivity|].
  split; [reflexivity|]. split; reflexivity.
Qed.

End Part000Facts.

(** ** Doubles that hold whole numbers *)

Module DoubleFacts.

Import Double.

Lemma digits2_size (m : positive) : digits2_pos m = Pos.size m.
Proof. induction m as [m IH|m IH|]; cbn; congruence. Qed.

Lemma iter_pos_nat (A : Type) (f : A -> A) (p : positive) :
  forall x : A, iter_pos f p x = Nat.iter (Pos.to_nat p) f x.
Proof.
  induction p as [p IH|p IH|]; intro x; cbn [iter_pos].
  - rewrite !IH, Pos2Nat.inj_xI.
    replace (S (2 * Pos.to_nat p))
      with (Pos.to_nat p + (Pos.to_nat p + 1))%nat by lia.
    rewrite !Nat.iter_add. reflexivity.
  - rewrite !IH, Pos2Nat.inj_xO.
    replace (2 * Pos.to_nat p)%nat
      with (Pos.to_nat p + Pos.to_nat p)%nat by lia.
    rewrite Nat.iter_add. reflexivity.
  - reflexivity.
Qed.

Lemma Pos_iter_shl (m p : positive) : Pos.iter xO m p = shl m (Pos.to_nat p).
Proof. unfold shl. apply Pos2Nat.inj_iter. Qed.

Lemma shl_shl (m : positive) (j k : nat) : shl (shl m j) k = shl m (j + k).
Proof. unfold shl. rewrite Nat.add_comm. symmetry. apply Nat.iter_add. Qed.

Lemma size_shl (m : positive) (k : nat) :
  Zpos (Pos.size (shl m k)) = (Zpos (Pos.size m) + Z.of_nat k)%Z.
Proof.
  induction k as [|k IH].
  - cbn. lia.
  - change (shl m (S k)) with (xO (shl m k)). cbn [Pos.size].
    rewrite Pos2Z.inj_succ, IH. lia.
Qed.

Lemma Zpos_shl (m : positive) (k : nat) :
  Zpos (shl m k) = (Zpos m * 2 ^ Z.of_nat k)%Z.
Proof.
  induction k as [|k IH].
  - cbn. lia.
  - change (shl m (S k)) with (xO (shl m k)).
    rewrite Pos2Z.inj_xO, IH, Nat2Z.inj_succ, Z.pow_succ_r by lia. lia.
Qed.

(** Shifting right takes back the zeros that a shift left has put in, and
    nothing is lost. *)
Lemma shr_shl (m : positive) (k j : nat) :
  Nat.iter k shr_1
    {| shr_m := Zpos (shl m (k + j)); shr_r := false; shr_s := false |}
  = {| shr_m := Zpos (shl m j); shr_r := false; shr_s := false |}.
Proof.
  induction k as [|k IH]; [reflexivity|].
  rewrite Nat.iter_succ_r.
  change (shl m (S k + j)) with (xO (shl m (k + j))). cbn [shr_1 orb].
  exact IH.
Qed.

Lemma fexp_size (d : Z) : (1 <= d)%Z -> fexp prec emax d = (d - 53)%Z.
Proof. intro H. unfold fexp, emin, prec, emax. lia. Qed.

(** Rounding leaves a mantissa of 53 bits alone. *)
Lemma binary_round_aux_canonical (s : bool) (m : positive) (e : Z) :
  Zpos (Pos.size m) = 53%Z -> (-1074 <= e <= 971)%Z ->
  binary_round_aux prec emax s (Zpos m) e loc_Exact = S754_finite s m e.
Proof.
  intros Hm He. unfold binary_round_aux, shr_fexp.
  cbn [Zdigits2 shr_record_of_loc]. rewrite digits2_size, Hm.
  assert (F : fexp prec emax (53 + e) = e)
    by (unfold fexp, emin, prec, emax; lia).
  rewrite F, Z.sub_diag. cbn [shr shr_m loc_of_shr_record round_nearest_even].
  cbn [Zdigits2 shr_record_of_loc]. rewrite digits2_size, Hm, F, Z.sub_diag.
  cbn [shr shr_m]. unfold prec, emax.
  replace (e <=? 1024 - 53)%Z with true by (symmetry; apply Z.leb_le; lia).
  reflexivity.
Qed.

(** A whole number below [2 ^ 53], written with [t] zeros to its right and
    the exponent [- t], rounds to the double that holds it. *)
Lemma binary_round_shl (q : positive) (t : nat) :
  (Zpos (Pos.size q) <= 53)%Z -> (Z.of_nat t <= 1021)%Z ->
  binary_round prec emax false (shl q t) (- Z.of_nat t) = whole q.
Proof.
  intros Hq Ht. unfold binary_round, whole.
  set (d := Zpos (Pos.size q)) in *.
  assert (Hd : (1 <= d)%Z) by (unfold d; lia).
  rewrite digits2_size, size_shl. fold d.
  replace (d + Z.of_nat t + - Z.of_nat t)%Z with d by lia.
  rewrite (fexp_size Hd).
  unfold shl_align.
  destruct (d - 53 - - Z.of_nat t)%Z as [|p|p] eqn:E.
  - (* the mantissa has 53 bits already *)
    assert (Et : Z.to_nat (53 - d) = t) by lia. rewrite Et.
    replace (- Z.of_nat t)%Z with (d - 53)%Z by lia.
    apply binary_round_aux_canonical; [rewrite size_shl; fold d; lia | lia].
  - (* more than 53 bits: zeros are shifted out *)
    unfold binary_round_aux, shr_fexp.
    cbn [Zdigits2 shr_record_of_loc]. rewrite digits2_size, size_shl. fold d.
    replace (d + Z.of_nat t + - Z.of_nat t)%Z with d by lia.
    rewrite (fexp_size Hd), E. cbn [shr].
    rewrite iter_pos_nat.
    assert (Hs : Nat.iter (Pos.to_nat p) shr_1
                   {| shr_m := Zpos (shl q t); shr_r := false;
                      shr_s := false |}
                 = {| shr_m := Zpos (shl q (Z.to_nat (53 - d)));
                      shr_r := false; shr_s := false |}).
    { replace t with (Pos.to_nat p + Z.to_nat (53 - d))%nat by lia.
      apply shr_shl. }
    rewrite Hs.
    cbn [shr_m loc_of_shr_record round_nearest_even Zdigits2 shr_record_of_loc].
    rewrite digits2_size, size_shl. fold d.
    replace (d + Z.of_nat (Z.to_nat (53 - d)) + (- Z.of_nat t + Zpos p))%Z
      with d by lia.
    rewrite (fexp_size Hd).
    replace (d - 53 - (- Z.of_nat t + Zpos p))%Z with 0%Z by lia.
    cbn [shr shr_m]. unfold prec, emax.
    replace (- Z.of_nat t + Zpos p <=? 1024 - 53)%Z with true
      by (symmetry; apply Z.leb_le; lia).
    f_equal. lia.
  - (* fewer than 53 bits: the mantissa is shifted left *)
    rewrite Pos_iter_shl, shl_shl.
    replace (t + Pos.to_nat p)%nat with (Z.to_nat (53 - d)) by lia.
    apply binary_round_aux_canonical; [rewrite size_shl; fold d; lia | lia].
Qed.

Lemma of_Z_pos (q : positive) :
  (Zpos (Pos.size q) <= 53)%Z -> of_Z (Zpos q) = whole q.
Proof.
  intro H. unfold of_Z. cbn [binary_normalize].
  apply (@binary_round_shl q 0 H). cbn. lia.
Qed.

Lemma size_le_53 (q : positive) :
  (Zpos q < 2 ^ 53)%Z -> (Zpos (Pos.size q) <= 53)%Z.
Proof.
  intro H. pose proof (Pos.size_le q) as L.
  destruct (Z_le_gt_dec (Zpos (Pos.size q)) 53) as [|G]; [assumption|exfalso].
  assert (P : (2 ^ 54 <= 2 ^ Zpos (Pos.size q))%Z)
    by (apply Z.pow_le_mono_r; lia).
  assert (L' : (2 ^ Zpos (Pos.size q) <= Zpos q~0)%Z).
  { rewrite <- Pos2Z.inj_pow. apply Pos2Z.pos_le_pos. exact L. }
  change (2 ^ 54)%Z with (2 * 2 ^ 53)%Z in P. lia.
Qed.

Lemma size_lt_lt (a b : positive) :
  (Zpos (Pos.size a) < Zpos (Pos.size b))%Z -> (Zpos a < Zpos b)%Z.
Proof.
  intro H.
  pose proof (Pos.size_gt a) as Ha. pose proof (Pos.size_le b) as Hb.
  apply Pos2Z.pos_lt_pos in Ha. apply Pos2Z.pos_le_pos in Hb.
  rewrite Pos2Z.inj_pow in Ha, Hb.
  assert (P : (2 * 2 ^ Zpos (Pos.size a) <= 2 ^ Zpos (Pos.size b))%Z).
  { rewrite <- Z.pow_succ_r by lia. apply Z.pow_le_mono_r; lia. }
  change (Zpos b~0) with (2 * Zpos b)%Z in Hb. lia.
Qed.

Lemma size_le_le (a b : positive) :
  (Zpos a <= Zpos b)%Z -> (Zpos (Pos.size a) <= Zpos (Pos.size b))%Z.
Proof.
  intro H.
  destruct (Z_le_gt_dec (Zpos (Pos.size a)) (Zpos (Pos.size b))) as [|G];
    [assumption|].
  assert (L : (Zpos b < Zpos a)%Z) by (apply size_lt_lt; lia). lia.
Qed.

Lemma compare_shl (a b : positive) (k : nat) :
  Pos.compare_cont Eq (shl a k) (shl b k) = Pos.compare a b.
Proof.
  induction k as [|k IH]; [reflexivity|].
  change (shl a (S k)) with (xO (shl a k)).
  change (shl b (S k)) with (xO (shl b k)). exact IH.
Qed.

(** Doubles that hold whole numbers compare as the whole numbers do. *)
Lemma compare_whole (a b : positive) :
  SFcompare (whole a) (whole b) = Some (Pos.compare a b).
Proof.
  unfold whole. cbn [SFcompare]. f_equal.
  destruct (Z.compare_spec (Zpos (Pos.size a) - 53) (Zpos (Pos.size b) - 53))
    as [E|L|G].
  - assert (E' : Pos.size a = Pos.size b) by lia. rewrite E'.
    apply compare_shl.
  - symmetry. apply Pos.compare_lt_iff. apply Pos2Z.pos_lt_pos.
    apply size_lt_lt. lia.
  - symmetry. apply Pos.compare_gt_iff. apply Pos2Z.pos_lt_pos.
    apply size_lt_lt. lia.
Qed.

(** [a >= b] on whole numbers below [2 ^ 53]. *)
Lemma ge_of_Z (a b : Z) :
  (0 <= a < 2 ^ 53)%Z -> (0 <= b < 2 ^ 53)%Z ->
  ge (of_Z a) (of_Z b) = (b <=? a)%Z.
Proof.
  intros Ha Hb. unfold ge, le, SFleb.
  destruct a as [|a|a]; [|pose proof (@size_le_53 a) as Sa|lia];
    (destruct b as [|b|b]; [|pose proof (@size_le_53 b) as Sb|lia]).
  - reflexivity.
  - rewrite (@of_Z_pos b) by lia. reflexivity.
  - rewrite (@of_Z_pos a) by lia. reflexivity.
  - rewrite (@of_Z_pos a), (@of_Z_pos b), compare_whole by lia.
    change (Zpos b <=? Zpos a)%Z with (Pos.leb b a).
    unfold Pos.leb. now destruct (Pos.compare b a).
Qed.

(** The difference of two whole numbers below [2 ^ 53] is exact. *)
Lemma sub_of_Z (a b : Z) :
  (0 < b <= a)%Z -> (a < 2 ^ 53)%Z ->
  sub (of_Z a) (of_Z b) = of_Z (a - b).
Proof.
  intros Hb Ha.
  destruct a as [|a|a]; [lia| |lia]. destruct b as [|b|b]; [lia| |lia].
  pose proof (@size_le_53 a Ha) as Sa.
  assert (Sb : (Zpos (Pos.size b) <= Zpos (Pos.size a))%Z)
    by (apply size_le_le; lia).
  rewrite (@of_Z_pos a), (@of_Z_pos b) by lia.
  unfold sub, whole. cbn [SFsub].
  set (da := Zpos (Pos.size a)) in *. set (db := Zpos (Pos.size b)) in *.
  replace (Z.min (da - 53) (db - 53)) with (db - 53)%Z by lia.
  assert (Xa : fst (shl_align (shl a (Z.to_nat (53 - da))) (da - 53) (db - 53))
               = shl a (Z.to_nat (53 - db))).
  { unfold shl_align.
    destruct (db - 53 - (da - 53))%Z as [|p|p] eqn:E; cbn [fst].
    - f_equal. lia.
    - lia.
    - rewrite Pos_iter_shl, shl_shl. f_equal. lia. }
  assert (Xb : fst (shl_align (shl b (Z.to_nat (53 - db))) (db - 53) (db - 53))
               = shl b (Z.to_nat (53 - db))).
  { unfold shl_align. rewrite Z.sub_diag. reflexivity. }
  rewrite Xa, Xb. cbn [cond_Zopp].
  set (k := Z.to_nat (53 - db)).
  destruct (Z.eq_dec (Zpos a) (Zpos b)) as [E|N].
  - injection E as ->. rewrite !Z.sub_diag. reflexivity.
  - assert (Hq : (Zpos a - Zpos b)%Z = Zpos (a - b))
      by (rewrite Pos2Z.inj_sub; lia).
    assert (Hd : (Zpos (shl a k) - Zpos (shl b k))%Z = Zpos (shl (a - b) k)).
    { rewrite !Zpos_shl, <- Hq. lia. }
    rewrite Hd, Hq. cbn [binary_normalize].
    assert (Sq : (Zpos (Pos.size (a - b)) <= 53)%Z).
    { apply size_le_53. lia. }
    rewrite of_Z_pos by exact Sq.
    replace (db - 53)%Z with (- Z.of_nat k)%Z by lia.
    apply binary_round_shl; [exact Sq | lia].
Qed.

(** The mantissa of a whole number, aligned on the exponent of a whole
    number that has no more bits. *)
Lemma align_whole (a : positive) (d : Z) :
  (1 <= d <= Zpos (Pos.size a))%Z -> (Zpos (Pos.size a) <= 53)%Z ->
  fst (shl_align (shl a (Z.to_nat (53 - Zpos (Pos.size a))))
         (Zpos (Pos.size a) - 53) (d - 53))
  = shl a (Z.to_nat (53 - d)).
Proof.
  intros Hd Ha. unfold shl_align.
  destruct (d - 53 - (Zpos (Pos.size a) - 53))%Z as [|p|p] eqn:E; cbn [fst].
  - f_equal. lia.
  - lia.
  - rewrite Pos_iter_shl, shl_shl. f_equal. lia.
Qed.

(** The sum of two whole numbers is exact when it is below [2 ^ 53]. *)
Lemma add_of_Z (a b : Z) :
  (0 <= a)%Z -> (0 <= b)%Z -> (a + b < 2 ^ 53)%Z ->
  add (of_Z a) (of_Z b) = of_Z (a + b).
Proof.
  intros Ha Hb Hab.
  destruct a as [|a|a]; [|pose proof (@size_le_53 a) as Sa|lia];
    (destruct b as [|b|b]; [|pose proof (@size_le_53 b) as Sb|lia]).
  - reflexivity.
  - change (0 + Zpos b)%Z with (Zpos b).
    rewrite (@of_Z_pos b) by lia. reflexivity.
  - rewrite Z.add_0_r, (@of_Z_pos a) by lia. reflexivity.
  - rewrite (@of_Z_pos a), (@of_Z_pos b) by lia.
    unfold add, whole. cbn [SFadd].
    set (da := Zpos (Pos.size a)) in *. set (db := Zpos (Pos.size b)) in *.
    set (d := Z.min da db).
    replace (Z.min (da - 53) (db - 53)) with (d - 53)%Z by lia.
    unfold da at 1 2. rewrite (@align_whole a d) by (unfold d; lia).
    unfold db at 1 2. rewrite (@align_whole b d) by (unfold d; lia).
    cbn [cond_Zopp].
    set (k := Z.to_nat (53 - d)).
    assert (Hs : (Zpos (shl a k) + Zpos (shl b k))%Z = Zpos (shl (a + b) k)).
    { rewrite !Zpos_shl, Pos2Z.inj_add. lia. }
    rewrite Hs. change (Zpos a + Zpos b)%Z with (Zpos (a + b)).
    cbn [binary_normalize].
    assert (Sq : (Zpos (Pos.size (a + b)) <= 53)%Z).
    { apply size_le_53. rewrite Pos2Z.inj_add. lia. }
    rewrite of_Z_pos by exact Sq.
    replace (d - 53)%Z with (- Z.of_nat k)%Z by lia.
    apply binary_round_shl; [exact Sq | lia].
Qed.

(** Subtracting zero, or a whole number from itself. *)
Lemma sub_of_Z_le (a b : Z) :
  (0 <= b <= a)%Z -> (a < 2 ^ 53)%Z ->
  sub (of_Z a) (of_Z b) = of_Z (a - b).
Proof.
  intros Hb Ha.
  destruct (Z.eq_dec b 0) as [->|Hnz]; [|apply sub_of_Z; lia].
  rewrite Z.sub_0_r.
  destruct a as [|a|a]; [reflexivity| |lia].
  rewrite (@of_Z_pos a) by (apply size_le_53; lia). reflexivity.
Qed.

(** [a > b] on whole numbers below [2 ^ 53]. *)
Lemma gt_of_Z (a b : Z) :
  (0 <= a < 2 ^ 53)%Z -> (0 <= b < 2 ^ 53)%Z ->
  gt (of_Z a) (of_Z b) = (b <? a)%Z.
Proof.
  intros Ha Hb. unfold gt, lt, SFltb.
  destruct a as [|a|a]; [|pose proof (@size_le_53 a) as Sa|lia];
    (destruct b as [|b|b]; [|pose proof (@size_le_53 b) as Sb|lia]).
  - reflexivity.
  - rewrite (@of_Z_pos b) by lia. reflexivity.
  - rewrite (@of_Z_pos a) by lia. reflexivity.
  - rewrite (@of_Z_pos a), (@of_Z_pos b), compare_whole by lia.
    change (Zpos b <? Zpos a)%Z with (Pos.ltb b a).
    unfold Pos.ltb. now destruct (Pos.compare b a).
Qed.

(** [Math.min] of a whole number and a smaller one. *)
Lemma min_of_Z_gt (a b : Z) :
  (0 <= b < a)%Z -> (a < 2 ^ 53)%Z ->
  min (of_Z a) (of_Z b) = of_Z b.
Proof.
  intros Hb Ha.
  assert (Hle : le (of_Z a) (of_Z b) = false).
  { change (le (of_Z a) (of_Z b)) with (ge (of_Z b) (of_Z a)).
    rewrite ge_of_Z by lia. apply Z.leb_gt. lia. }
  destruct a as [|a|a]; [lia| |lia].
  rewrite (@of_Z_pos a) in * by (apply size_le_53; lia).
  unfold min, whole in *. rewrite Hle. now destruct (of_Z b).
Qed.

(** *** Infinite intervals *)

Lemma ge_Infinity (r : double) : r <> Infinity -> ge r Infinity = false.
Proof.
  intro H. destruct r as [s|[|]| |s m e]; try reflexivity.
  now contradiction H.
Qed.

Lemma ge_NegInfinity (r : double) : r <> NaN -> ge r NegInfinity = true.
Proof.
  intro H. destruct r as [s|[|]| |s m e]; try reflexivity.
  now contradiction H.
Qed.

Lemma sub_NegInfinity (r : double) :
  r <> NaN -> r <> NegInfinity -> sub r NegInfinity = Infinity.
Proof.
  intros H1 H2. destruct r as [s|[|]| |s m e]; try reflexivity.
  - now contradiction H2.
  - now contradiction H1.
Qed.

End DoubleFacts.

(** ** [src/src/game-loop.ts] on doubles: method bodies as transformations
    of the world *)

Module GameLoopIeeeFacts.

Import Double DoubleFacts game_loop_ieee.

Section Facts.

Variable Env : Type.
Implicit Types w : World Env.

Local Open Scope method_scope.

Lemma ieee_clampResidualDelay_eq w :
  clampResidualDelay w =
  Some (tt,
        if gt (residualDelayMs (self w)) (delayClamp (self w))
        then on_self (set_residualDelayMs
                        (min (residualDelayMs (self w)) (delayClamp (self w))))
               (record (EmitGameStepDropped
                          (sub (residualDelayMs (self w)) (delayClamp (self w))))
                  w)
        else w).
Proof.
  cbv [clampResidualDelay bind this get ret].
  destruct (gt (residualDelayMs (self w)) (delayClamp (self w))); reflexivity.
Qed.

Lemma ieee_update_stopped (fuel : nat) (now : Z) w :
  _isRunning (self w) = false -> update fuel now w = Some (tt, w).
Proof.
  intro H. cbv [update bind this get ret].
  rewrite H. reflexivity.
Qed.

Lemma ieee_update_running (fuel : nat) (now : Z) w :
  _isRunning (self w) = true ->
  update fuel now w = (prologue now ;; drain fuel ;; epilogue) w.
Proof.
  intro H.
  cbv [update prologue bind this get ret queueNextIteration stepIntervalMs
       setTimeout modify currentTime clampResidualDelay emit].
  rewrite H. cbn [negb].
  destruct (gt _ _); reflexivity.
Qed.

Lemma ieee_prologue_total (now : Z) w :
  prologue now w = Some (tt, loop_entry now w).
Proof.
  unfold loop_entry, exec.
  destruct (prologue now w) as [[[] w1]|] eqn:E; [reflexivity|].
  revert E. cbv [prologue bind this get ret queueNextIteration stepIntervalMs
                 setTimeout modify currentTime].
  rewrite ieee_clampResidualDelay_eq. discriminate.
Qed.

Lemma ieee_update_from_loop_entry (fuel : nat) (now : Z) w :
  _isRunning (self w) = true ->
  update fuel now w = (drain fuel ;; epilogue) (loop_entry now w).
Proof.
  intro H. rewrite (ieee_update_running fuel now w H).
  unfold bind at 1. rewrite ieee_prologue_total. reflexivity.
Qed.

Lemma ieee_epilogue_eq w :
  epilogue w =
  Some (tt, record (EmitUpdate (div (residualDelayMs (self w)) (interval w))) w).
Proof. reflexivity. Qed.

(** *** The world at the entry of the [while] loop *)

Lemma ieee_loop_entry_eq (now : Z) w :
  loop_entry now w =
  let i := interval w in
  let r := add (residualDelayMs (self w))
               (sub (of_Z now) (previousStepTime (self w))) in
  let c := delayClamp (self w) in
  let w0 :=
    on_self (set_previousStepTime (of_Z now))
      (on_self (set_residualDelayMs r)
         (record (CurrentTime now)
            (record (SetTimeout i) (set_timers (timers w ++ [i]) w)))) in
  if gt r c
  then on_self (set_residualDelayMs (min r c))
         (record (EmitGameStepDropped (sub r c)) w0)
  else w0.
Proof.
  cbv [loop_entry exec prologue bind this get ret queueNextIteration
       stepIntervalMs setTimeout modify currentTime clampResidualDelay emit].
  cbn [self on_self record set_timers residualDelayMs delayClamp
       previousStepTime set_residualDelayMs set_previousStepTime].
  fold (interval w).
  destruct (gt _ (delayClamp (self w))); reflexivity.
Qed.

Ltac by_ieee_loop_entry_eq :=
  rewrite ieee_loop_entry_eq; cbv zeta; destruct (gt _ _); reflexivity.

Lemma ieee_loop_entry_timers (now : Z) w :
  timers (loop_entry now w) = timers w ++ [interval w].
Proof. by_ieee_loop_entry_eq. Qed.

Lemma ieee_loop_entry_stepRate (now : Z) w :
  stepRate (self (loop_entry now w)) = stepRate (self w).
Proof. by_ieee_loop_entry_eq. Qed.

Lemma ieee_loop_entry_interval (now : Z) w :
  interval (loop_entry now w) = interval w.
Proof. unfold interval. now rewrite ieee_loop_entry_stepRate. Qed.

Lemma ieee_loop_entry_delayClamp (now : Z) w :
  delayClamp (self (loop_entry now w)) = delayClamp (self w).
Proof. by_ieee_loop_entry_eq. Qed.

Lemma ieee_loop_entry_previousStepTime (now : Z) w :
  previousStepTime (self (loop_entry now w)) = of_Z now.
Proof. by_ieee_loop_entry_eq. Qed.

Lemma ieee_loop_entry_residualDelayMs (now : Z) w :
  residualDelayMs (self (loop_entry now w)) =
  clamped (add (residualDelayMs (self w))
               (sub (of_Z now) (previousStepTime (self w))))
    (delayClamp (self w)).
Proof. unfold clamped. by_ieee_loop_entry_eq. Qed.

Lemma ieee_invocations_app (es fs : list Effect) :
  invocations (es ++ fs) = (invocations es + invocations fs)%nat.
Proof. unfold invocations. now rewrite filter_app, length_app. Qed.


Lemma ieee_loop_entry_log (now : Z) w :
  log (loop_entry now w) =
  log w ++ SetTimeout (interval w) :: CurrentTime now ::
    (let r := add (residualDelayMs (self w))
                  (sub (of_Z now) (previousStepTime (self w))) in
     if gt r (delayClamp (self w))
     then [EmitGameStepDropped (sub r (delayClamp (self w)))]
     else []).
Proof.
  rewrite ieee_loop_entry_eq. cbv zeta.
  destruct (gt _ _); cbn [log on_self record];
    repeat rewrite <- app_assoc; reflexivity.
Qed.

Lemma ieee_dropped_app (es fs : list Effect) :
  dropped (es ++ fs) = dropped es ++ dropped fs.
Proof. unfold dropped. apply flat_map_app. Qed.

Lemma ieee_loop_entry_dropped (now : Z) w :
  dropped (log (loop_entry now w)) =
  dropped (log w) ++
    (let r := add (residualDelayMs (self w))
                  (sub (of_Z now) (previousStepTime (self w))) in
     if gt r (delayClamp (self w))
     then [sub r (delayClamp (self w))]
     else []).
Proof.
  rewrite ieee_loop_entry_log, ieee_dropped_app. cbv zeta.
  destruct (gt _ _); reflexivity.
Qed.

Lemma ieee_loop_entry_invocations (now : Z) w :
  invocations (log (loop_entry now w)) = invocations (log w).
Proof.
  rewrite ieee_loop_entry_log, ieee_invocations_app. cbv zeta.
  destruct (gt _ _); cbn; lia.
Qed.


(** *** The [while] loop of [update] *)

Lemma ieee_drain_cond_eq w :
  drain_cond w = Some (ge (residualDelayMs (self w)) (interval w), w).
Proof. reflexivity. Qed.

Lemma ieee_iteration_eq w :
  iteration w =
  let sr := stepFn (self w) (closure w) in
  let w1 := record (StepFn (snd sr)) (set_closure (fst sr) w) in
  let w2 := match snd sr with
            | Returns => w1
            | CallsStop => on_self (set_isRunning false) w1
            end in
  on_self (set_residualDelayMs (sub (residualDelayMs (self w)) (interval w))) w2.
Proof.
  cbv [iteration exec drain_body call_stepFn bind this get ret modify stop
       stepIntervalMs interval].
  destruct (stepFn (self w) (closure w)) as [s' []]; reflexivity.
Qed.

Lemma ieee_drain_body_eq w : drain_body w = Some (tt, iteration w).
Proof.
  cbv [iteration exec drain_body call_stepFn bind this get ret modify stop
       stepIntervalMs].
  destruct (stepFn (self w) (closure w)) as [s' []]; reflexivity.
Qed.

Ltac by_ieee_iteration_eq w :=
  rewrite ieee_iteration_eq; cbv zeta;
  destruct (snd (stepFn (self w) (closure w))); reflexivity.

Lemma ieee_iteration_residualDelayMs w :
  residualDelayMs (self (iteration w)) =
  sub (residualDelayMs (self w)) (interval w).
Proof. by_ieee_iteration_eq w. Qed.

Lemma ieee_iteration_stepRate w :
  stepRate (self (iteration w)) = stepRate (self w).
Proof. by_ieee_iteration_eq w. Qed.

Lemma ieee_iteration_interval w : interval (iteration w) = interval w.
Proof. unfold interval. now rewrite ieee_iteration_stepRate. Qed.

Lemma ieee_iteration_previousStepTime w :
  previousStepTime (self (iteration w)) = previousStepTime (self w).
Proof. by_ieee_iteration_eq w. Qed.

Lemma ieee_iteration_timers w : timers (iteration w) = timers w.
Proof. by_ieee_iteration_eq w. Qed.

Lemma ieee_iteration_log w :
  log (iteration w) = log w ++ [StepFn (snd (stepFn (self w) (closure w)))].
Proof. by_ieee_iteration_eq w. Qed.

Lemma ieee_iteration_invocations w :
  invocations (log (iteration w)) = S (invocations (log w)).
Proof. rewrite ieee_iteration_log, ieee_invocations_app. cbn. lia. Qed.

Lemma ieee_iteration_delayClamp w :
  delayClamp (self (iteration w)) = delayClamp (self w).
Proof. by_ieee_iteration_eq w. Qed.

Lemma ieee_iteration_dropped w : dropped (log (iteration w)) = dropped (log w).
Proof.
  rewrite ieee_iteration_log, ieee_dropped_app. cbn. apply app_nil_r.
Qed.


(** *** The world after a number of turns *)

Lemma turns_interval (k : nat) w :
  interval (Nat.iter k (@iteration Env) w) = interval w.
Proof.
  induction k as [|k IH]; [reflexivity|].
  rewrite ?Nat.iter_succ. now rewrite ieee_iteration_interval.
Qed.

Lemma turns_residualDelayMs (k : nat) w :
  residualDelayMs (self (Nat.iter k (@iteration Env) w)) = residual_after k w.
Proof.
  induction k as [|k IH]; [reflexivity|].
  unfold residual_after in *. rewrite ?Nat.iter_succ.
  now rewrite ieee_iteration_residualDelayMs, turns_interval, IH.
Qed.

Lemma turns_invocations (k : nat) w :
  invocations (log (Nat.iter k (@iteration Env) w))
  = (invocations (log w) + k)%nat.
Proof.
  induction k as [|k IH]; [cbn; lia|].
  rewrite ?Nat.iter_succ. rewrite ieee_iteration_invocations, IH. lia.
Qed.

Lemma turns_previousStepTime (k : nat) w :
  previousStepTime (self (Nat.iter k (@iteration Env) w))
  = previousStepTime (self w).
Proof.
  induction k as [|k IH]; [reflexivity|].
  rewrite ?Nat.iter_succ. now rewrite ieee_iteration_previousStepTime.
Qed.

Lemma turns_timers (k : nat) w :
  timers (Nat.iter k (@iteration Env) w) = timers w.
Proof.
  induction k as [|k IH]; [reflexivity|].
  rewrite ?Nat.iter_succ. now rewrite ieee_iteration_timers.
Qed.

Lemma turns_delayClamp (k : nat) w :
  delayClamp (self (Nat.iter k (@iteration Env) w)) = delayClamp (self w).
Proof.
  induction k as [|k IH]; [reflexivity|].
  rewrite ?Nat.iter_succ. now rewrite ieee_iteration_delayClamp.
Qed.

Lemma turns_dropped (k : nat) w :
  dropped (log (Nat.iter k (@iteration Env) w)) = dropped (log w).
Proof.
  induction k as [|k IH]; [reflexivity|].
  rewrite ?Nat.iter_succ. now rewrite ieee_iteration_dropped.
Qed.


(** The loop makes [n] turns when the residual delay is at least the
    interval before each of the first [n] subtractions and below it after
    them. *)
Lemma drain_iter (n fuel : nat) w :
  (forall k, (k < n)%nat -> ge (residual_after k w) (interval w) = true) ->
  ge (residual_after n w) (interval w) = false ->
  (n < fuel)%nat ->
  drain fuel w = Some (tt, Nat.iter n (@iteration Env) w).
Proof.
  intros Hbefore Hafter Hfuel.
  apply (WhileFacts.while_iter _ _
           (fun w => ge (residualDelayMs (self w)) (interval w))
           (@iteration Env) ieee_drain_cond_eq ieee_drain_body_eq).
  - intros k Hk. rewrite turns_residualDelayMs, turns_interval.
    now apply Hbefore.
  - now rewrite turns_residualDelayMs, turns_interval.
  - exact Hfuel.
Qed.

(** The loop never ends once a subtraction leaves the residual delay as
    it was and at least the interval. *)
Lemma drain_stuck (fuel : nat) w :
  ge (residualDelayMs (self w)) (interval w) = true ->
  sub (residualDelayMs (self w)) (interval w) = residualDelayMs (self w) ->
  drain fuel w = None.
Proof.
  intros Hge Hsub.
  apply (WhileFacts.while_stuck _ _
           (fun w => ge (residualDelayMs (self w)) (interval w))
           (@iteration Env) ieee_drain_cond_eq ieee_drain_body_eq
           (fun w' => residualDelayMs (self w') = residualDelayMs (self w)
                      /\ interval w' = interval w)).
  - intros w' [Hr Hi]. split; [now rewrite Hr, Hi|].
    rewrite ieee_iteration_residualDelayMs, ieee_iteration_interval, Hr, Hi.
    now split.
  - now split.
Qed.

Lemma drain_stuck_after (n fuel : nat) w :
  (forall k, (k <= n)%nat -> ge (residual_after k w) (interval w) = true) ->
  sub (residual_after n w) (interval w) = residual_after n w ->
  drain fuel w = None.
Proof.
  revert fuel w. induction n as [|n IH]; intros fuel w Hge Hsub.
  - apply drain_stuck; [apply (Hge 0%nat); lia | exact Hsub].
  - destruct fuel as [|fuel]; [reflexivity|].
    unfold drain.
    rewrite (WhileFacts.while_S _ _ _ _ ieee_drain_cond_eq ieee_drain_body_eq).
    assert (H0 : ge (residualDelayMs (self w)) (interval w) = true)
      by (apply (Hge 0%nat); lia).
    rewrite H0. apply IH.
    + intros k Hk. rewrite <- turns_residualDelayMs, ieee_iteration_interval.
      rewrite <- Nat.iter_succ_r, turns_residualDelayMs. apply Hge. lia.
    + rewrite <- !turns_residualDelayMs, ieee_iteration_interval.
      rewrite <- Nat.iter_succ_r, turns_residualDelayMs. exact Hsub.
Qed.

(** *** A cycle, and [start()] *)

Lemma cycle_iter (n fuel : nat) (now : Z) w :
  _isRunning (self w) = true ->
  (forall k, (k < n)%nat ->
     ge (residual_after k (loop_entry now w)) (interval w) = true) ->
  ge (residual_after n (loop_entry now w)) (interval w) = false ->
  (n < fuel)%nat ->
  update fuel now w =
  Some (tt, record (EmitUpdate (div (residual_after n (loop_entry now w))
                                    (interval w)))
              (Nat.iter n (@iteration Env) (loop_entry now w))).
Proof.
  intros Hrun Hbefore Hafter Hfuel.
  rewrite (ieee_update_from_loop_entry fuel now w Hrun). unfold bind.
  rewrite (@drain_iter n fuel (loop_entry now w)).
  - rewrite ieee_epilogue_eq, turns_residualDelayMs, turns_interval,
      ieee_loop_entry_interval. reflexivity.
  - intros k Hk. rewrite ieee_loop_entry_interval. now apply Hbefore.
  - now rewrite ieee_loop_entry_interval.
  - exact Hfuel.
Qed.

Lemma cycle_stuck (n fuel : nat) (now : Z) w :
  _isRunning (self w) = true ->
  (forall k, (k <= n)%nat ->
     ge (residual_after k (loop_entry now w)) (interval w) = true) ->
  sub (residual_after n (loop_entry now w)) (interval w)
    = residual_after n (loop_entry now w) ->
  update fuel now w = None.
Proof.
  intros Hrun Hge Hsub.
  rewrite (ieee_update_from_loop_entry fuel now w Hrun). unfold bind.
  rewrite (@drain_stuck_after n fuel (loop_entry now w)); [reflexivity| |].
  - intros k Hk. rewrite ieee_loop_entry_interval. now apply Hge.
  - now rewrite ieee_loop_entry_interval.
Qed.

Lemma ieee_start_eq (fuel : nat) (t1 t2 : Z) w :
  start fuel t1 t2 w = (update fuel t2 ;; this) (restarted t1 w).
Proof. reflexivity. Qed.

(** *** Whole numbers of milliseconds *)

(** With an interval and a residual delay that are whole numbers, every
    subtraction of the loop is exact. *)
Lemma residual_after_whole (i r : Z) w (k : nat) :
  interval w = of_Z i -> (0 < i)%Z ->
  residualDelayMs (self w) = of_Z r -> (r < 2 ^ 53)%Z ->
  (Z.of_nat k * i <= r)%Z ->
  residual_after k w = of_Z (r - Z.of_nat k * i).
Proof.
  intros Hi Hpos Hr Hbound.
  induction k as [|k IH]; intro Hk.
  - unfold residual_after. cbn [Nat.iter nat_rect]. rewrite Hr. f_equal. lia.
  - unfold residual_after in *. rewrite ?Nat.iter_succ.
    rewrite IH by lia. rewrite Hi, sub_of_Z by lia. f_equal. lia.
Qed.

Lemma drain_whole (i r : Z) (fuel : nat) w :
  interval w = of_Z i -> (0 < i < 2 ^ 53)%Z ->
  residualDelayMs (self w) = of_Z r -> (0 <= r < 2 ^ 53)%Z ->
  (Z.to_nat (r / i) < fuel)%nat ->
  drain fuel w = Some (tt, Nat.iter (Z.to_nat (r / i)) (@iteration Env) w) /\
  residual_after (Z.to_nat (r / i)) w = of_Z (r mod i).
Proof.
  intros Hi Hpos Hr Hbound Hfuel.
  assert (Hq : (0 <= r / i)%Z) by (apply Z.div_pos; lia).
  pose proof (Z.div_mod r i ltac:(lia)) as Hdm.
  pose proof (Z.mod_pos_bound r i ltac:(lia)) as Hm.
  assert (Hres : forall k : nat, (Z.of_nat k <= r / i)%Z ->
                   residual_after k w = of_Z (r - Z.of_nat k * i)).
  { intros k Hk.
    apply (@residual_after_whole i r w k Hi (proj1 Hpos) Hr (proj2 Hbound)).
    nia. }
  split.
  - apply drain_iter; [| |exact Hfuel].
    + intros k Hk. rewrite Hres, Hi, ge_of_Z by nia.
      apply Z.leb_le. nia.
    + rewrite Hres, Hi, ge_of_Z by nia.
      apply Z.leb_gt. nia.
  - rewrite Hres by lia. f_equal. nia.
Qed.

(** A cycle of a loop on whole numbers is exact.  With the residual delay
    [r], the reference time [p] and the reading [now], the loop starts from
    [m = min (r + (now - p)) c], makes [m / i] turns and leaves [m mod i];
    what exceeds the clamp is reported as dropped. *)
Lemma whole_cycle (i c p r now : Z) (fuel : nat) w :
  _isRunning (self w) = true ->
  whole_ms i c p r w ->
  (p <= now < 2 ^ 53)%Z -> (r + (now - p) < 2 ^ 53)%Z ->
  (Z.to_nat (Z.min (r + (now - p)) c / i) < fuel)%nat ->
  exists w' : World Env,
    update fuel now w = Some (tt, w') /\
    whole_ms i c now (Z.min (r + (now - p)) c mod i) w' /\
    invocations (log w') =
      (invocations (log w) + Z.to_nat (Z.min (r + (now - p)) c / i))%nat /\
    dropped (log w') =
      dropped (log w) ++
        (if (c <? r + (now - p))%Z then [of_Z (r + (now - p) - c)] else []).
Proof.
  intros Hrun (Hi & Hib & Hc & Hcb & Hp & Hpb & Hr & Hrb) Hnow Hacc Hfuel.
  set (acc := (r + (now - p))%Z) in *.
  assert (Eacc : add (residualDelayMs (self w))
                     (sub (of_Z now) (previousStepTime (self w)))
                 = of_Z acc).
  { rewrite Hr, Hp, sub_of_Z_le by lia. apply add_of_Z; lia. }
  assert (Egt : gt (of_Z acc) (of_Z c) = (c <? acc)%Z)
    by (apply gt_of_Z; unfold acc; lia).
  assert (Em : residualDelayMs (self (loop_entry now w))
               = of_Z (Z.min acc c)).
  { rewrite ieee_loop_entry_residualDelayMs, Eacc, Hc. unfold clamped.
    rewrite Egt. destruct (Z.ltb_spec c acc) as [L|L].
    - rewrite min_of_Z_gt by lia. f_equal. lia.
    - f_equal. lia. }
  assert (Hm : (0 <= Z.min acc c < 2 ^ 53)%Z) by (unfold acc; lia).
  destruct (@drain_whole i (Z.min acc c) fuel (loop_entry now w))
    as [D R]; try assumption.
  { now rewrite ieee_loop_entry_interval. }
  eexists. split.
  { rewrite (ieee_update_from_loop_entry fuel now w Hrun). unfold bind.
    rewrite D. apply ieee_epilogue_eq. }
  split.
  { unfold whole_ms, interval. cbn [self record].
    fold (interval (Nat.iter (Z.to_nat (Z.min acc c / i)) (@iteration Env)
                      (loop_entry now w))).
    rewrite turns_interval, ieee_loop_entry_interval, turns_delayClamp,
      ieee_loop_entry_delayClamp, turns_previousStepTime,
      ieee_loop_entry_previousStepTime, turns_residualDelayMs, R.
    pose proof (Z.mod_pos_bound (Z.min acc c) i ltac:(lia)).
    repeat split; try assumption; lia. }
  cbn [log record].
  rewrite ieee_invocations_app, turns_invocations,
    ieee_loop_entry_invocations, ieee_dropped_app, turns_dropped,
    ieee_loop_entry_dropped. cbv zeta.
  rewrite Eacc, Hc, Egt.
  split; [cbn; lia|].
  cbn [dropped flat_map]. rewrite app_nil_r.
  destruct (Z.ltb_spec c acc) as [L|L]; [|reflexivity].
  rewrite sub_of_Z_le by (unfold acc in *; lia). reflexivity.
Qed.

(** *** Scripts on whole numbers *)

Lemma ieee_stop_eq w : stop w = Some (tt, on_self (set_isRunning false) w).
Proof. reflexivity. Qed.

Lemma ieee_wake_eq (fuel : nat) (now : Z) w :
  wake fuel now w =
  match timers w with
  | [] => Some (tt, w)
  | _ :: rest => update fuel now (set_timers rest w)
  end.
Proof.
  cbv [wake bind get ret modify]. destruct (timers w); reflexivity.
Qed.

Lemma ieee_run_cons (fuel : nat) (a : Action) (acts : list Action) w
    (w1 : World Env) :
  perform fuel a w = Some (tt, w1) ->
  run fuel (a :: acts) w = run fuel acts w1.
Proof. intro H. cbn [run]. unfold bind. now rewrite H. Qed.

Lemma total_app (ds es : list Z) : total (ds ++ es) = (total ds + total es)%Z.
Proof.
  unfold total. induction ds as [|d ds IH]; [reflexivity|].
  cbn [app fold_right]. rewrite IH. lia.
Qed.

Lemma total_nonneg (ds : list Z) :
  Forall (fun d => (0 < d)%Z) ds -> (0 <= total ds)%Z.
Proof.
  unfold total. induction 1 as [|d ds Hd _ IH]; [cbn; lia|].
  cbn [fold_right]. lia.
Qed.

Section Settled.

Variables i c : Z.
Variable n0 : nat.
Variable d0 : list double.
Variable k : Z.

Lemma settled_later (last last' : Z) w :
  (last <= last')%Z ->
  settled i c n0 d0 k last w -> settled i c n0 d0 k last' w.
Proof.
  intros Hle (p & r & ds & W & R & P & D & F & N & E).
  exists p, r, ds. split; [exact W|]. split; [exact R|]. split; [lia|].
  tauto.
Qed.

Lemma settled_frame (last : Z) w (w' : World Env) :
  self w' = self w -> log w' = log w ->
  settled i c n0 d0 k last w -> settled i c n0 d0 k last w'.
Proof.
  intros Hs Hl (p & r & ds & W & R & P & D & F & N & E).
  exists p, r, ds. unfold whole_ms, interval in *. rewrite Hs, Hl.
  tauto.
Qed.

Lemma settled_stop (last : Z) w :
  settled i c n0 d0 k last w ->
  settled i c n0 d0 k last (on_self (set_isRunning false) w).
Proof.
  intros (p & r & ds & W & R & P & D & F & N & E).
  exists p, r, ds. split; [exact W|]. tauto.
Qed.

(** A cycle keeps the ledger, whether the guard lets it run or not. *)
Lemma update_settled (last now : Z) (fuel : nat) w :
  settled i c n0 d0 k last w ->
  (last <= now)%Z -> (now + i < 2 ^ 53)%Z ->
  (Z.to_nat (c / i) < fuel)%nat ->
  exists w' : World Env,
    update fuel now w = Some (tt, w') /\
    settled i c n0 d0 k now w'.
Proof.
  intros Hs Hnow Hbound Hfuel.
  destruct (_isRunning (self w)) eqn:Hrun.
  2:{ exists w. split; [now apply ieee_update_stopped|].
      now apply settled_later with last. }
  destruct Hs as (p & r & ds & W & R & P & D & F & N & E).
  pose proof W as (_ & Hib & _ & Hcb & _ & Hpb & _ & Hrb).
  set (acc := (r + (now - p))%Z).
  set (m := Z.min acc c).
  assert (Hm : (0 <= m <= c)%Z) by (unfold m, acc; lia).
  assert (Hq : (0 <= m / i <= c / i)%Z).
  { split; [apply Z.div_pos; lia | apply Z.div_le_mono; lia]. }
  destruct (@whole_cycle i c p r now fuel w Hrun W)
    as (w' & U & W' & I & Dr); [lia | lia | fold acc m; lia |].
  fold acc m in W', I, Dr.
  exists w'. split; [exact U|].
  pose proof (Z.div_mod m i ltac:(lia)) as Hdm.
  pose proof (Z.mod_pos_bound m i ltac:(lia)) as Hmod.
  exists now, (m mod i)%Z,
    (ds ++ if (c <? acc)%Z then [(acc - c)%Z] else []).
  split; [exact W'|]. split; [lia|]. split; [lia|].
  split.
  { rewrite Dr, D, map_app, <- app_assoc. f_equal. f_equal.
    now destruct (c <? acc)%Z. }
  split.
  { apply Forall_app. split; [exact F|].
    destruct (Z.ltb_spec c acc); constructor; [lia | constructor]. }
  split; [lia|].
  rewrite I, total_app.
  replace (Z.of_nat (invocations (log w) + Z.to_nat (m / i) - n0))
    with (Z.of_nat (invocations (log w) - n0) + m / i)%Z by lia.
  destruct (Z.ltb_spec c acc) as [L|L]; cbn [total fold_right];
    unfold m in *; nia.
Qed.

Lemma perform_settled (last : Z) (a : Action) (fuel : nat) w :
  settled i c n0 d0 k last w ->
  not_Start a ->
  monotone (2 ^ 53 - i) last [a] ->
  (Z.to_nat (c / i) < fuel)%nat ->
  exists (last' : Z) (w' : World Env),
    perform fuel a w = Some (tt, w') /\
    settled i c n0 d0 k last' w' /\
    forall acts, monotone (2 ^ 53 - i) last (a :: acts) ->
                 monotone (2 ^ 53 - i) last' acts.
Proof.
  intros Hs Ha Hm Hfuel. destruct a as [t1 t2| |now]; [destruct Ha| |].
  - exists last, (on_self (set_isRunning false) w).
    split; [reflexivity|]. split; [now apply settled_stop|].
    intros acts H. exact H.
  - cbn [monotone] in Hm. destruct Hm as [Hnow _].
    cbn [perform]. rewrite ieee_wake_eq.
    destruct (timers w) as [|t ts] eqn:T.
    + exists now, w. split; [reflexivity|].
      split; [apply settled_later with last; [lia | exact Hs]|].
      intros acts H. apply H.
    + destruct (@update_settled last now fuel (set_timers ts w))
        as (w' & U & S'); [|lia|lia|exact Hfuel|].
      { now apply settled_frame with w. }
      exists now, w'. split; [exact U|]. split; [exact S'|].
      intros acts H. apply H.
Qed.

Lemma run_settled (acts : list Action) (fuel : nat) :
  forall (last : Z) w,
    settled i c n0 d0 k last w ->
    Forall not_Start acts ->
    monotone (2 ^ 53 - i) last acts ->
    (Z.to_nat (c / i) < fuel)%nat ->
    exists (last' : Z) (w' : World Env),
      run fuel acts w = Some (tt, w') /\
      settled i c n0 d0 k last' w'.
Proof.
  induction acts as [|a acts IH]; intros last w Hs Hns Hm Hfuel.
  - exists last, w. split; [reflexivity | exact Hs].
  - inversion Hns as [|a' acts' Ha Hrest]; subst.
    destruct (@perform_settled last a fuel w Hs Ha) as (l1 & w1 & P & S1 & M1);
      [|exact Hfuel|].
    { destruct a as [t1 t2| |now]; cbn [monotone] in *; tauto. }
    destruct (IH l1 w1 S1 Hrest (M1 acts Hm) Hfuel) as (l2 & w2 & R & S2).
    exists l2, w2. split; [|exact S2].
    now rewrite (@ieee_run_cons fuel a acts w w1 P).
Qed.

End Settled.

End Facts.

End GameLoopIeeeFacts.

(** * The claims *)

Import game_loop GameLoopFacts.

Local Open Scope method_scope.

Lemma turns_tick (r hz : Q) :
  turns r (Qred (1000 / hz)) = Z.to_nat (floor (r / (1000 / hz))).
Proof.
  unfold turns, floor. f_equal. apply Qfloor_comp.
  now rewrite Qred_correct.
Qed.




(** C3: in a scheduling cycle that passes the guard, the step-dropped
    notification is emitted if and only if the residual delay exceeds the
    clamp once the elapsed time is added; its payload is the excess, which is
    strictly positive, and the residual delay is the clamp when the loop
    starts.  Otherwise the residual delay is left as accumulated.  Nothing
    after the clamp check emits this notification. *)
Theorem C3_step_dropped (Env : Type) (w : World Env) (now : Z) (fuel : nat) :
  _isRunning (self w) = true ->
  let r := accumulated now w in
  let c := delayClamp (self w) in
  (gt r c = true ->
   dropped (log (loop_entry now w)) = dropped (log w) ++ [sub r c] /\
   gt (sub r c) (Num 0) = true /\
   residualDelayMs (self (loop_entry now w)) = c) /\
  (gt r c = false ->
   dropped (log (loop_entry now w)) = dropped (log w) /\
   residualDelayMs (self (loop_entry now w)) = r) /\
  update fuel now w = (drain fuel ;; epilogue) (loop_entry now w) /\
  (forall w' : World Env,
     update fuel now w = Some (tt, w') ->
     dropped (log w') = dropped (log (loop_entry now w))).
Proof.
  intros Hrun r c. repeat split.
  - rewrite loop_entry_dropped. fold r c. now rewrite H.
  - now apply sub_gt_pos.
  - rewrite loop_entry_residualDelayMs. fold r c. now apply clamped_gt.
  - rewrite loop_entry_dropped. fold r c. rewrite H. apply app_nil_r.
  - rewrite loop_entry_residualDelayMs. fold r c. now apply clamped_not_gt.
  - now apply update_from_loop_entry.
  - intros w' H.
    destruct (@update_returns Env fuel now w w' Hrun H) as (wd & D & ->).
    cbn [log record]. rewrite dropped_app. cbn. rewrite app_nil_r.
    apply framed_dropped. exact (@framed_drain Env fuel _ wd D).
Qed.

Lemma C3_witness :
  dropped (log (loop_entry 250 (example_world (Num 100) (Num 200) 0 (Num 0) true)))
    = [Num 50] /\
  residualDelayMs
    (self (loop_entry 250 (example_world (Num 100) (Num 200) 0 (Num 0) true)))
    = Num 200.
Proof.
  destruct (@C3_step_dropped unit
              (example_world (Num 100) (Num 200) 0 (Num 0) true) 250 21)
    as ((D & _ & R) & _).
  - reflexivity.
  - reflexivity.
  - split; [exact D | exact R].
Defined.

(** C4, as amended: [stop()] always returns; it clears the running flag, so
    that [isRunning] then answers [false], and changes nothing else: every
    other field of the loop, the closure of the step function, the log and
    the queue of pending wake-ups are as they were, so that a pending
    wake-up is not cancelled.  On a loop that is not running, [stop()]
    changes nothing at all.  While the loop stays stopped, a wake-up that
    is delivered only leaves the queue. *)
Theorem C4_stop (Env : Type) (w : World Env) :
  exists w' : World Env,
    stop w = Some (tt, w') /\
    isRunning w' = Some (false, w') /\
    stepFn (self w') = stepFn (self w) /\
    stepRate (self w') = stepRate (self w) /\
    previousStepTime (self w') = previousStepTime (self w) /\
    residualDelayMs (self w') = residualDelayMs (self w) /\
    delayClamp (self w') = delayClamp (self w) /\
    closure w' = closure w /\
    timers w' = timers w /\
    log w' = log w /\
    (_isRunning (self w) = false -> w' = w) /\
    stop w' = Some (tt, w') /\
    forall (fuel : nat) (now : Z),
      wake fuel now w' = Some (tt, set_timers (tl (timers w')) w').
Proof.
  exists (on_self (set_isRunning false) w).
  split; [reflexivity|]. split; [reflexivity|].
  do 8 (split; [reflexivity|]).
  split.
  { intro H. pose proof (stop_stopped w H) as E. rewrite stop_eq in E.
    now injection E. }
  split; [now apply stop_stopped|].
  intros fuel now. rewrite wake_eq.
  destruct w as [l s [|t ts] es]; reflexivity.
Qed.

(** On a loop that was never started and has a wake-up pending, [stop()]
    changes nothing. *)
Lemma C4_witness :
  exists w' : World unit,
    stop (set_timers [Num 10]
            (example_world (Num 100) (Num 200) 0 (Num 5) false))
      = Some (tt, w') /\
    w' = set_timers [Num 10]
           (example_world (Num 100) (Num 200) 0 (Num 5) false) /\
    timers w' = [Num 10].
Proof.
  destruct (@C4_stop unit
              (set_timers [Num 10]
                 (example_world (Num 100) (Num 200) 0 (Num 5) false)))
    as (w' & S & _ & _ & _ & _ & _ & _ & _ & T & _ & Same & _).
  exists w'. split; [exact S|]. split; [apply Same; reflexivity | exact T].
Defined.

(** C4 as stated fails: [stop()] does not cancel the pending wake-up.  The
    timer armed by [start()] is still queued after [stop()]. *)
Lemma C4_counterexample :
  exists (l : GameLoop unit) (w1 w2 : World unit),
    constructor inert (Num 100) no_opts 0 = Returned l /\
    run 1 [Start 0 0] (boot tt l) = Some (tt, w1) /\
    timers w1 = [Num 10] /\
    stop w1 = Some (tt, w2) /\
    isRunning w2 = Some (false, w2) /\
    timers w2 = [Num 10].
Proof.
  eexists. eexists. eexists.
  split; [reflexivity|].
  do 4 (split; [vm_compute; reflexivity|]). vm_compute. reflexivity.
Qed.

(** C5, as amended: once [stop()] has returned, and as long as [start()] is
    not called, no call and no wake-up invokes the step function, emits an
    event or arms a timer: every wake-up, however early it was queued, finds
    the flag cleared and only leaves the queue.  The cycle in which the step
    function itself called [stop()] is not cut short: its [while] loop does
    not read the flag and ends in the same world, flag apart, as if [stop()]
    had been called after it. *)
Theorem C5_quiet_after_stop (Env : Type) (w : World Env)
    (acts : list Action) (fuel : nat) :
  Forall not_Start acts ->
  (exists w' : World Env,
     run fuel (Stop :: acts) w = Some (tt, w') /\
     log w' = log w /\
     closure w' = closure w /\
     self w' = set_isRunning false (self w) /\
     exists delivered, timers w = delivered ++ timers w') /\
  drain fuel (on_self (set_isRunning false) w) =
    match drain fuel w with
    | Some (u, w') => Some (u, on_self (set_isRunning false) w')
    | None => None
    end.
Proof.
  intro Hacts. split; [|apply drain_stop].
  assert (Hoff : _isRunning (self (on_self (set_isRunning false) w)) = false)
    by reflexivity.
  destruct (@run_stopped Env fuel acts Hacts _ Hoff)
    as (w' & R & S & C & L & T).
  exists w'. split; [|tauto].
  now rewrite (@run_cons Env fuel Stop acts w _ (stop_eq w)).
Qed.

Lemma C5_witness :
  exists w' : World unit,
    run 0 [Stop; Wake 10; Stop; Wake 20]
      {| self := example_loop (Num 100) (Num 200) 0; closure := tt;
         timers := [Num 10; Num 10; Num 10]; log := [] |} = Some (tt, w') /\
    log w' = [] /\ timers w' = [Num 10].
Proof.
  destruct (@C5_quiet_after_stop unit
              {| self := example_loop (Num 100) (Num 200) 0; closure := tt;
                 timers := [Num 10; Num 10; Num 10]; log := [] |}
              [Wake 10; Stop; Wake 20] 0)
    as ((w' & R & L & _) & _).
  - repeat constructor.
  - exists w'. split; [exact R|]. split; [exact L|].
    revert R. vm_compute. now intros [= <-].
Defined.

(** C5 as stated fails: when the step function calls [stop()] during a
    cycle, that cycle goes on after the call has returned, with no
    [start()] in between: the step function is invoked again and the update
    notification is emitted. *)
Lemma C5_counterexample :
  exists (l : GameLoop nat) (w1 w' : World nat),
    constructor stops_at_once (Num 100) no_opts 0 = Returned l /\
    run 1 [Start 0 0] (boot 0%nat l) = Some (tt, w1) /\
    wake 3 25 w1 = Some (tt, w') /\
    log w' = log w1 ++
             [SetTimeout (Num 10); CurrentTime 25; StepFn CallsStop;
              StepFn Returns; EmitUpdate (Num (1 # 2))] /\
    isRunning w' = Some (false, w').
Proof.
  eexists. eexists. eexists.
  split; [reflexivity|].
  do 3 (split; [vm_compute; reflexivity|]). vm_compute. reflexivity.
Qed.

(** The two wake-ups pending after a restart both pass the guard: each runs
    a cycle and arms a wake-up of its own. *)
Example restart_stacks_two_chains :
  exists w' : World unit,
    run 2 [Start 0 0; Start 5 5; Wake 10; Wake 10] (boot tt
      (example_loop (Num 100) (Num 200) 0)) = Some (tt, w') /\
    timers w' = [Num 10; Num 10] /\
    List.length (timeouts (log w')) = 4%nat.
Proof.
  eexists. split; [vm_compute; reflexivity|].
  split; vm_compute; reflexivity.
Qed.

(** C7, as amended: the constructor validates nothing.  For every step rate
    and every clamp, zero and negative ones included, it returns a stopped
    loop that holds the step rate as given and the clamp as given, or 200
    when the option is left out. *)
Theorem C7_constructor_total (Env : Type) (step : Env -> Env * Reentry)
    (stepRateHz : number) (opts : GameLoopOptions) (now : Z) :
  exists l : GameLoop Env,
    constructor step stepRateHz opts now = Returned l /\
    stepRate l = stepRateHz /\
    delayClamp l = match delayClampMs opts with
                   | Some c => c
                   | None => Num 200
                   end /\
    residualDelayMs l = Num 0 /\
    _isRunning l = false.
Proof.
  eexists. split; [reflexivity|]. repeat split.
Qed.

(** C7 as stated fails: construction with a step rate of zero, and with a
    negative clamp, returns a loop instead of throwing. *)
Lemma C7_counterexample :
  constructor inert (Num 0) no_opts 0
    = Returned (example_loop (Num 0) (Num 200) 0) /\
  constructor inert (Num 100) {| delayClampMs := Some (Num (-5)) |} 0
    = Returned (example_loop (Num 100) (Num (-5)) 0).
Proof. split; reflexivity. Qed.

(** What such loops do later.  With a step rate of zero the interval is
    [Infinity] and no cycle ever invokes the step function. *)
Lemma zero_rate_never_steps (Env : Type) (w : World Env) (r : Q) (fuel : nat) :
  stepRate (self w) = Num 0 ->
  residualDelayMs (self w) = Num r ->
  drain (S fuel) w = Some (tt, w).
Proof.
  intros Hrate Hr. apply drain_skipped.
  unfold interval. rewrite Hrate, Hr. reflexivity.
Qed.

(** With a negative step rate the interval is negative and the loop of a
    cycle that starts from a residual delay that is not negative never
    ends. *)
Lemma negative_rate_never_returns (Env : Type) (w : World Env) (hz r : Q)
    (fuel : nat) :
  stepRate (self w) = Num hz -> hz < 0 ->
  residualDelayMs (self w) = Num r -> 0 <= r ->
  drain fuel w = None.
Proof.
  intros Hrate Hhz Hr H0.
  assert (Hi : interval w = Num (Qred (1000 / hz))).
  { unfold interval. rewrite Hrate. unfold div.
    destruct (Qeq_bool hz 0) eqn:E; [|reflexivity].
    apply Qeq_bool_iff in E. lra. }
  assert (Hneg : Qred (1000 / hz) <= 0).
  { rewrite Qred_correct. unfold Qdiv.
    assert (Hinv : / hz < 0).
    { apply Qopp_lt_compat in Hhz.
      assert (H1 : 0 < / - hz) by (apply Qinv_lt_0_compat; lra).
      assert (H2 : / - hz == - / hz).
      { field. lra. }
      lra. }
    nra. }
  apply (@drain_diverges Env w r (Qred (1000 / hz)) fuel Hi Hneg Hr). lra.
Qed.

(** C8: a scheduling cycle that passes the guard arms the next wake-up
    first: before the clock is read, before the clamp check and before any
    invocation of the step function, it registers one timer whose delay is
    [1000 / stepRate]; the rest of the cycle registers no other timer. *)
Theorem C8_wake_up_armed_first (Env : Type) (w : World Env) (now : Z)
    (fuel : nat) :
  _isRunning (self w) = true ->
  let i := div (Num 1000) (stepRate (self w)) in
  (exists rest,
     log (loop_entry now w) = log w ++ SetTimeout i :: CurrentTime now :: rest /\
     timeouts rest = [] /\ invocations rest = 0%nat) /\
  timers (loop_entry now w) = timers w ++ [i] /\
  update fuel now w = (drain fuel ;; epilogue) (loop_entry now w) /\
  (forall w' : World Env,
     update fuel now w = Some (tt, w') ->
     timers w' = timers w ++ [i] /\
     exists rest,
       log w' = log w ++ SetTimeout i :: CurrentTime now :: rest /\
       timeouts rest = []).
Proof.
  intros Hrun i. split; [|split; [|split]].
  - rewrite loop_entry_log. eexists. split; [reflexivity|].
    destruct (gt _ _); split; reflexivity.
  - apply loop_entry_timers.
  - now apply update_from_loop_entry.
  - intros w' H.
    destruct (@update_returns Env fuel now w w' Hrun H) as (wd & D & ->).
    destruct (@framed_drain Env fuel _ wd D) as [_ _ _ _ _ T [rs L]].
    cbn [timers log record]. split.
    + rewrite T. apply loop_entry_timers.
    + rewrite L, loop_entry_log.
      repeat rewrite <- app_assoc. cbn [app].
      eexists. split; [reflexivity|].
      rewrite !timeouts_app, timeouts_map_StepFn.
      destruct (gt _ _); reflexivity.
Qed.

Lemma C8_witness :
  timers (loop_entry 35 (example_world (Num 100) (Num 200) 0 (Num 0) true))
    = [Num 10].
Proof.
  destruct (@C8_wake_up_armed_first unit
              (example_world (Num 100) (Num 200) 0 (Num 0) true) 35 4)
    as (_ & T & _).
  - reflexivity.
  - exact T.
Defined.

(** C9: when the clamp is strictly smaller than the interval, a cycle in
    which the clamp triggers returns without any invocation of the step
    function; it leaves the clamp as the residual delay. *)
Theorem C9_small_clamp_never_steps (Env : Type) (w : World Env) (now : Z)
    (fuel : nat) :
  _isRunning (self w) = true ->
  lt (delayClamp (self w)) (div (Num 1000) (stepRate (self w))) = true ->
  gt (accumulated now w) (delayClamp (self w)) = true ->
  exists w' : World Env,
    update (S fuel) now w = Some (tt, w') /\
    invocations (log w') = invocations (log w) /\
    residualDelayMs (self w') = delayClamp (self w) /\
    dropped (log w') =
      dropped (log w) ++ [sub (accumulated now w) (delayClamp (self w))].
Proof.
  intros Hrun Hsmall Htrig.
  assert (Hr : residualDelayMs (self (loop_entry now w)) = delayClamp (self w)).
  { rewrite loop_entry_residualDelayMs. now apply clamped_gt. }
  assert (Hskip : ge (residualDelayMs (self (loop_entry now w)))
                    (interval (loop_entry now w)) = false).
  { rewrite Hr, loop_entry_interval. now apply lt_not_ge. }
  pose proof (@drain_skipped Env (loop_entry now w) fuel Hskip) as D.
  exists (record (EmitUpdate (div (residualDelayMs (self (loop_entry now w)))
                                (interval (loop_entry now w))))
            (loop_entry now w)).
  split; [exact (@update_of_drain Env (S fuel) now w _ Hrun D)|].
  cbn [log self record].
  rewrite invocations_app, dropped_app, loop_entry_invocations,
    loop_entry_dropped, Htrig.
  cbn. rewrite app_nil_r. repeat split; [lia | exact Hr].
Qed.

Lemma C9_witness :
  exists w' : World unit,
    update 1 25 (example_world (Num 100) (Num 5) 0 (Num 0) true)
      = Some (tt, w') /\
    invocations (log w') = 0%nat /\
    residualDelayMs (self w') = Num 5 /\
    dropped (log w') = [Num 20].
Proof.
  apply (@C9_small_clamp_never_steps unit
           (example_world (Num 100) (Num 5) 0 (Num 0) true) 25 0);
    reflexivity.
Defined.

(** C10: a loop fresh from its constructor, with a finite step rate, is not
    running and has an alpha of zero, its residual delay being zero; and in
    any world, reading [isRunning] or [residualDelayAlpha] returns the world
    it was read in. *)
Theorem C10_fresh_loop (Env : Type) (step : Env -> Env * Reentry) (hz : Q)
    (opts : GameLoopOptions) (now : Z) (s : Env) :
  (exists l : GameLoop Env,
     constructor step (Num hz) opts now = Returned l /\
     residualDelayMs l = Num 0 /\
     isRunning (boot s l) = Some (false, boot s l) /\
     residualDelayAlpha (boot s l) = Some (Num 0, boot s l)) /\
  (forall w : World Env,
     exec isRunning w = Some w /\ exec residualDelayAlpha w = Some w).
Proof.
  split; [|intro w; split; reflexivity].
  eexists. split; [reflexivity|]. split; [reflexivity|].
  split; [reflexivity|].
  rewrite residualDelayAlpha_eq. f_equal. f_equal.
  unfold interval. cbn [self boot stepRate residualDelayMs].
  unfold div at 2. destruct (Qeq_bool hz 0) eqn:E.
  - reflexivity.
  - unfold div.
    destruct (Qeq_bool (Qred (1000 / hz)) 0) eqn:E'.
    + exfalso. apply Qeq_bool_iff in E'. rewrite Qred_correct in E'.
      assert (Hhz : ~ hz == 0).
      { intro H. apply Qeq_bool_iff in H. congruence. }
      assert (H1 : 1000 / hz * hz == 1000) by (field; exact Hhz).
      rewrite E' in H1. lra.
    + reflexivity.
Qed.

(** * Further properties of [src/src/game-loop.ts] *)

(** ** What a completed cycle leaves behind *)

Lemma reentries_app (es fs : list Effect) :
  reentries (es ++ fs) = reentries es ++ reentries fs.
Proof. unfold reentries. apply flat_map_app. Qed.

Lemma reentries_map_StepFn (rs : list Reentry) :
  reentries (map StepFn rs) = rs.
Proof.
  unfold reentries.
  induction rs as [|r rs IH]; cbn [map flat_map app];
    [reflexivity | now rewrite IH].
Qed.

Lemma updates_app (es fs : list Effect) :
  updates (es ++ fs) = updates es ++ updates fs.
Proof. unfold updates. apply flat_map_app. Qed.

Lemma updates_map_StepFn (rs : list Reentry) : updates (map StepFn rs) = [].
Proof. induction rs as [|r rs IH]; cbn; [reflexivity | exact IH]. Qed.

Lemma all_return_app (rs rs' : list Reentry) :
  all_return (rs ++ rs') = all_return rs && all_return rs'.
Proof. unfold all_return. apply forallb_app. Qed.

Lemma loop_entry_isRunning_eq (Env : Type) (now : Z) (w : World Env) :
  _isRunning (self (loop_entry now w)) = _isRunning (self w).
Proof. rewrite loop_entry_eq. cbv zeta. destruct (gt _ _); reflexivity. Qed.

(** The [while] loop leaves the flag set exactly when it was set and no
    invocation called [stop()]. *)
Lemma drain_tracks_stop (Env : Type) (fuel : nat) (w w' : World Env) :
  drain fuel w = Some (tt, w') ->
  exists rs : list Reentry,
    log w' = log w ++ map StepFn rs /\
    _isRunning (self w') = _isRunning (self w) && all_return rs.
Proof.
  apply (WhileFacts.while_preserves _ _ _ _
           (@drain_cond_eq Env) (@drain_body_eq Env)
           (fun w w' => exists rs : list Reentry,
                log w' = log w ++ map StepFn rs /\
                _isRunning (self w') = _isRunning (self w) && all_return rs)).
  - intro w0. exists []. split; [now rewrite app_nil_r|].
    now rewrite andb_true_r.
  - intros w1 w2 w3 (rs & L1 & R1) (rs' & L2 & R2).
    exists (rs ++ rs'). split.
    + rewrite L2, L1, map_app. now rewrite app_assoc.
    + rewrite R2, R1, all_return_app. now rewrite andb_assoc.
  - intro w0. rewrite iteration_eq. cbv zeta.
    destruct (stepFn (self w0) (closure w0)) as [s' r].
    exists [r]. cbn [fst snd]. destruct r; cbn.
    + split; [reflexivity|]. now rewrite andb_true_r.
    + split; [reflexivity|]. now rewrite andb_false_r.
Qed.

(** X4: a call of [stop()] from the step function takes effect.  At the end
    of a cycle that passed the guard, the loop is running exactly when none
    of the invocations of the step function made in that cycle called
    [stop()]. *)
Theorem stop_from_step_function (Env : Type) (w w' : World Env) (now : Z)
    (fuel : nat) :
  _isRunning (self w) = true ->
  update fuel now w = Some (tt, w') ->
  exists rs : list Reentry,
    reentries (log w') = reentries (log w) ++ rs /\
    isRunning w' = Some (all_return rs, w').
Proof.
  intros Hrun H.
  destruct (@update_returns Env fuel now w w' Hrun H) as (wd & D & ->).
  destruct (@drain_tracks_stop Env fuel _ wd D) as (rs & L & R).
  exists rs. split.
  - cbn [log record]. rewrite reentries_app, L, reentries_app,
      reentries_map_StepFn, loop_entry_log, reentries_app.
    cbn [reentries flat_map app]. destruct (gt _ _); cbn [flat_map app];
      now rewrite !app_nil_r.
  - cbv [isRunning bind this get ret]. f_equal. f_equal.
    change (_isRunning (self wd) = all_return rs).
    now rewrite R, loop_entry_isRunning_eq, Hrun.
Qed.

Lemma stop_from_step_function_witness :
  exists rs : list Reentry,
    reentries (log stopping_world_after) = reentries (log stopping_world) ++ rs /\
    isRunning stopping_world_after = Some (all_return rs, stopping_world_after) /\
    rs = [CallsStop; Returns].
Proof.
  destruct (@stop_from_step_function nat stopping_world stopping_world_after
              25 3)
    as (rs & L & R).
  - reflexivity.
  - vm_compute. reflexivity.
  - exists rs. split; [exact L|]. split; [exact R|].
    revert L. vm_compute. now intros [= <-].
Defined.

(** X5: a cycle that passes the guard and returns emits exactly one update
    notification, as its last effect, and the payload is the
    [residualDelayAlpha] that the loop reports once the cycle is over. *)
Theorem update_payload_is_alpha (Env : Type) (w w' : World Env) (now : Z)
    (fuel : nat) :
  _isRunning (self w) = true ->
  update fuel now w = Some (tt, w') ->
  exists (a : number) (es : list Effect),
    log w' = es ++ [EmitUpdate a] /\
    updates (log w') = updates (log w) ++ [a] /\
    residualDelayAlpha w' = Some (a, w').
Proof.
  intros Hrun H.
  destruct (@update_returns Env fuel now w w' Hrun H) as (wd & D & ->).
  destruct (@framed_drain Env fuel _ wd D) as [_ _ _ _ _ _ [rs L]].
  exists (div (residualDelayMs (self wd)) (interval wd)), (log wd).
  split; [reflexivity|]. split; [|reflexivity].
  cbn [log record]. rewrite updates_app, L, updates_app,
    updates_map_StepFn, loop_entry_log, updates_app.
  cbn [updates flat_map app]. destruct (gt _ _); cbn [flat_map app];
    now rewrite !app_nil_r.
Qed.

Lemma update_payload_is_alpha_witness :
  exists (a : number) (es : list Effect),
    log stopping_world_after = es ++ [EmitUpdate a] /\
    updates (log stopping_world_after) = updates (log stopping_world) ++ [a] /\
    residualDelayAlpha stopping_world_after = Some (a, stopping_world_after).
Proof.
  apply (@update_payload_is_alpha nat stopping_world stopping_world_after 25 3).
  - reflexivity.
  - vm_compute. reflexivity.
Defined.

(** ** Pending wake-ups *)

Lemma update_timers (Env : Type) (w w' : World Env) (now : Z) (fuel : nat) :
  update fuel now w = Some (tt, w') ->
  timers w' =
    if _isRunning (self w) then timers w ++ [interval w] else timers w.
Proof.
  intro H. destruct (_isRunning (self w)) eqn:Hrun.
  - destruct (@update_returns Env fuel now w w' Hrun H) as (wd & D & ->).
    destruct (@framed_drain Env fuel _ wd D) as [_ _ _ _ _ T _].
    cbn [timers record]. rewrite T. apply loop_entry_timers.
  - rewrite (update_stopped fuel now w Hrun) in H. now injection H as <-.
Qed.

Lemma perform_timers (Env : Type) (w w' : World Env) (a : Action)
    (fuel : nat) :
  perform fuel a w = Some (tt, w') ->
  (List.length (timers w') <= List.length (timers w) + starts [a])%nat.
Proof.
  intro H. destruct a as [t1 t2| |now]; cbn [perform] in H.
  - unfold bind in H. rewrite start_eq in H. unfold bind in H.
    destruct (update fuel t2 (restarted t1 w)) as [[[] w1]|] eqn:U;
      [|discriminate H].
    cbv [this bind get ret] in H. injection H as <-.
    rewrite (@update_timers Env _ _ t2 fuel U). cbn. rewrite length_app. cbn. lia.
  - injection H as <-. cbn. lia.
  - rewrite wake_eq in H. destruct (timers w) as [|t ts] eqn:T.
    + injection H as <-. rewrite T. cbn. lia.
    + rewrite (@update_timers Env _ _ now fuel H). cbn [timers set_timers self].
      destruct (_isRunning (self w)); cbn; rewrite ?length_app; cbn; lia.
Qed.

Lemma starts_cons (a : Action) (acts : list Action) :
  starts (a :: acts) = (starts [a] + starts acts)%nat.
Proof. destruct a; reflexivity. Qed.

(** X6: wake-ups never multiply by themselves.  Whatever the script and the
    step function, when the script returns the number of pending wake-ups is
    at most the number there was plus one per call of [start()]: a cycle
    arms at most the one wake-up that replaces the wake-up that ran it. *)
Theorem wake_ups_never_multiply (Env : Type) (acts : list Action)
    (fuel : nat) :
  forall w w' : World Env,
    run fuel acts w = Some (tt, w') ->
    (List.length (timers w') <= List.length (timers w) + starts acts)%nat.
Proof.
  induction acts as [|a acts IH]; intros w w' H.
  - injection H as <-. cbn. lia.
  - cbn [run] in H. unfold bind in H.
    destruct (perform fuel a w) as [[[] w1]|] eqn:P; [|discriminate H].
    pose proof (@perform_timers Env w w1 a fuel P) as H1.
    pose proof (IH w1 w' H) as H2.
    rewrite starts_cons. lia.
Qed.

Lemma wake_ups_never_multiply_witness :
  (List.length (timers stopping_world_after)
   <= List.length (timers (set_timers [Num 10] stopping_world))
      + starts [Wake 25])%nat.
Proof.
  apply (@wake_ups_never_multiply nat [Wake 25] 3
           (set_timers [Num 10] stopping_world) stopping_world_after).
  vm_compute. reflexivity.
Defined.

(** ** Step rates that are not positive *)

(** X8: with a negative step rate the interval is negative and the first
    cycle never ends: when the residual delay and the clamp are not
    negative and the clock has not gone back, the cycle of a running loop
    returns for no amount of fuel. *)
Theorem negative_rate_hangs (Env : Type) (w : World Env) (now : Z)
    (hz r c : Q) (fuel : nat) :
  _isRunning (self w) = true ->
  stepRate (self w) = Num hz -> hz < 0 ->
  residualDelayMs (self w) = Num r -> 0 <= r ->
  delayClamp (self w) = Num c -> 0 <= c ->
  (previousStepTime (self w) <= now)%Z ->
  update fuel now w = None.
Proof.
  intros Hrun Hrate Hhz Hr Hr0 Hc Hc0 Hnow.
  rewrite (update_from_loop_entry fuel now w Hrun). unfold bind.
  assert (Hq : exists q : Q,
             residualDelayMs (self (loop_entry now w)) = Num q /\ 0 <= q).
  { rewrite loop_entry_residualDelayMs, Hc. unfold accumulated.
    rewrite Hr. cbn [add of_Z].
    set (e := inject_Z (now - previousStepTime (self w))).
    assert (He : 0 <= e).
    { unfold e. change 0 with (inject_Z 0). rewrite <- Zle_Qle. lia. }
    destruct (gt (Num (Qred (r + e))) (Num c)) eqn:G.
    - exists c. split; [now apply clamped_gt | exact Hc0].
    - exists (Qred (r + e)). split; [now apply clamped_not_gt|].
      rewrite Qred_correct. lra. }
  destruct Hq as (q & Hq & Hq0).
  assert (Hrate' : stepRate (self (loop_entry now w)) = Num hz)
    by now rewrite loop_entry_stepRate.
  now rewrite (@negative_rate_never_returns Env (loop_entry now w) hz q fuel
                 Hrate' Hhz Hq Hq0).
Qed.

Lemma negative_rate_hangs_witness :
  update 1000 0 (example_world (Num (-100)) (Num 200) 0 (Num 0) true) = None.
Proof.
  apply (@negative_rate_hangs unit
           (example_world (Num (-100)) (Num 200) 0 (Num 0) true) 0
           (-100) 0 200 1000).
  - reflexivity.
  - reflexivity.
  - reflexivity.
  - reflexivity.
  - apply Qle_refl.
  - reflexivity.
  - discriminate.
  - apply Z.le_refl.
Defined.

(** ** What is dropped, and when *)

Section Paced.

Variable Env : Type.
Variables hz c : Q.
Variable gap : Z.
Hypothesis hz_pos : 0 < hz.
Hypothesis c_nonneg : 0 <= c.
Hypothesis gap_fits : inject_Z gap + 1000 / hz <= c.



End Paced.



(** * Further properties of [src/unnamed/part_000] *)

Module Part000More.

Import part_000 part_000_host Part000Facts.

Section More.

Variable Env : Type.
Implicit Types w : World Env.

Local Open Scope method_scope.

Lemma p0_loop_entry_eq (now : Z) w :
  loop_entry now w =
  let r := add (residualDelay (self w))
             (of_Z (now - previousStepTime (self w))) in
  let c := delayClamp (self w) in
  let w0 :=
    on_self (set_previousStepTime now)
      (on_self (set_residualDelay r) (record (CurrentTime now) w)) in
  if gt r c
  then on_self (set_residualDelay (min r c))
         (record (EmitGameStepDropped (sub r c)) w0)
  else w0.
Proof.
  cbv [loop_entry exec prologue bind this get ret modify currentTime
       clampResidualDelay emit].
  cbn [self on_self record residualDelay delayClamp set_residualDelay
       set_previousStepTime].
  destruct (gt _ (delayClamp (self w))); reflexivity.
Qed.

Lemma p0_update_from_loop_entry (fuel : nat) (now : Z) w :
  update fuel now w =
  (drain fuel ;; l <- this ;; emit (EmitUpdate (residualDelay l)))
    (loop_entry now w).
Proof.
  rewrite p0_loop_entry_eq.
  cbv [update bind this get ret modify currentTime clampResidualDelay emit].
  cbn [self on_self record residualDelay delayClamp set_residualDelay
       set_previousStepTime].
  destruct (gt _ (delayClamp (self w))); reflexivity.
Qed.

Lemma p0_update_of_drain (fuel : nat) (now : Z) w (wd : World Env) :
  drain fuel (loop_entry now w) = Some (tt, wd) ->
  update fuel now w =
  Some (tt, record (EmitUpdate (residualDelay (self wd))) wd).
Proof.
  intro D. rewrite p0_update_from_loop_entry. unfold bind at 1.
  rewrite D. reflexivity.
Qed.

Lemma p0_update_returns (fuel : nat) (now : Z) w (w' : World Env) :
  update fuel now w = Some (tt, w') ->
  exists wd : World Env,
    drain fuel (loop_entry now w) = Some (tt, wd) /\
    w' = record (EmitUpdate (residualDelay (self wd))) wd.
Proof.
  rewrite p0_update_from_loop_entry. unfold bind at 1.
  destruct (drain fuel (loop_entry now w)) as [[[] wd]|]; [|discriminate].
  intro H. exists wd. split; [reflexivity|].
  cbv [bind this get ret emit modify] in H. now inversion H.
Qed.

(** What the [while] loop of this variant leaves alone. *)
Lemma p0_drain_frame (fuel : nat) w (w' : World Env) :
  drain fuel w = Some (tt, w') ->
  stepRate (self w') = stepRate (self w) /\
  previousStepTime (self w') = previousStepTime (self w) /\
  tickIntervalId (self w') = tickIntervalId (self w) /\
  updates (log w') = updates (log w) /\
  (tidy w -> tidy w').
Proof.
  apply (WhileFacts.while_preserves _ _ _ _
           (@p0_drain_cond_eq Env) (@p0_drain_body_eq Env)
           (fun w w' : World Env =>
              stepRate (self w') = stepRate (self w) /\
              previousStepTime (self w') = previousStepTime (self w) /\
              tickIntervalId (self w') = tickIntervalId (self w) /\
              updates (log w') = updates (log w) /\
              (tidy w -> tidy w'))).
  - intro w0. repeat split; auto.
  - intros w1 w2 w3 (A1 & A2 & A3 & A4 & A5) (B1 & B2 & B3 & B4 & B5).
    repeat split; try congruence. tauto.
  - intro w0. rewrite p0_iteration_eq. cbv zeta.
    destruct (stepHandler (self w0) (closure w0)) as [s' r].
    cbn [fst snd]. destruct r.
    + repeat split;
        cbn [self on_self log record set_closure set_residualDelay stepRate
             previousStepTime tickIntervalId];
        try reflexivity.
      * unfold updates. rewrite flat_map_app. cbn. now rewrite app_nil_r.
      * intro H. exact H.
    + repeat split;
        cbn [self on_self log record set_closure set_residualDelay stepRate
             previousStepTime tickIntervalId set_intervals];
        try reflexivity.
      * unfold updates. rewrite !flat_map_app. cbn. now rewrite !app_nil_r.
      * unfold tidy.
        cbn [intervals self on_self record set_closure set_intervals
             set_residualDelay tickIntervalId].
        destruct (intervals w0) as [|[id p] [|t ts]].
        -- intros _. now destruct (tickIntervalId (self w0)).
        -- intros ->. cbn [filter fst]. now rewrite Nat.eqb_refl.
        -- intros [].
Qed.

Lemma p0_loop_entry_invocations (now : Z) w :
  invocations (log (loop_entry now w)) = invocations (log w).
Proof.
  rewrite p0_loop_entry_eq. cbv zeta.
  destruct (gt _ _); cbn [log on_self record];
    rewrite !p0_invocations_app; cbn; lia.
Qed.

Lemma p0_loop_entry_updates (now : Z) w :
  updates (log (loop_entry now w)) = updates (log w).
Proof.
  rewrite p0_loop_entry_eq. cbv zeta. unfold updates.
  destruct (gt _ _); cbn [log on_self record];
    rewrite !flat_map_app; cbn; now rewrite !app_nil_r.
Qed.

Lemma p0_loop_entry_interval (now : Z) w :
  interval (loop_entry now w) = interval w.
Proof.
  rewrite p0_loop_entry_eq. cbv zeta. destruct (gt _ _); reflexivity.
Qed.

(** X11: a cycle of this variant has no guard: it runs whether or not the
    loop was ever started and whether or not it was stopped.  When it
    returns it has taken the reading as the reference time, the residual
    delay it leaves is not at least one interval, and it has emitted one
    update notification, which carries that residual delay, in
    milliseconds, not an alpha. *)
Theorem p0_cycle (w w' : World Env) (now : Z) (fuel : nat) :
  update fuel now w = Some (tt, w') ->
  previousStepTime (self w') = now /\
  ge (residualDelay (self w')) (interval w) = false /\
  updates (log w') = updates (log w) ++ [residualDelay (self w')].
Proof.
  intro U. destruct (p0_update_returns fuel now w U) as (wd & D & ->).
  destruct (@p0_drain_frame fuel _ wd D) as (R & P & _ & Up & _).
  pose proof (WhileFacts.while_exit _ _ _ _
                (@p0_drain_cond_eq Env) (@p0_drain_body_eq Env) fuel _ D) as X.
  cbn beta in X. cbn [log self record].
  split.
  { rewrite P, p0_loop_entry_eq. cbv zeta. now destruct (gt _ _). }
  split.
  { rewrite <- (p0_loop_entry_interval now w). unfold interval in *.
    now rewrite <- R. }
  unfold updates in *. rewrite flat_map_app, Up.
  fold (updates (log (loop_entry now w))). now rewrite p0_loop_entry_updates.
Qed.

(** ** The timer of the loop *)

Lemma p0_stop_tidy w :
  tidy w ->
  exists w1 : World Env,
    stop w = Some (tt, w1) /\
    intervals w1 = [] /\
    self w1 = self w.
Proof.
  intro H. rewrite p0_stop_eq. eexists. split; [reflexivity|].
  split; [|reflexivity].
  cbn [intervals record set_intervals]. unfold tidy in H.
  destruct (intervals w) as [|[id p] [|t ts]].
  - now destruct (tickIntervalId (self w)).
  - rewrite H. cbn [filter fst]. now rewrite Nat.eqb_refl.
  - destruct H.
Qed.

Lemma p0_start_tidy (now : Z) w :
  tidy w ->
  exists w' : World Env,
    start now w = Some (tt, w') /\
    intervals w' = [(next_id w, stepRate (self w))] /\
    tickIntervalId (self w') = Some (next_id w) /\
    previousStepTime (self w') = now /\
    residualDelay (self w') = residualDelay (self w).
Proof.
  intro H. rewrite p0_start_eq. eexists. split; [reflexivity|].
  cbv zeta.
  cbn [intervals self on_self record set_intervals set_tickIntervalId
       set_previousStepTime tickIntervalId previousStepTime residualDelay].
  split; [|repeat split].
  unfold tidy in H.
  destruct (intervals w) as [|[id p] [|t ts]].
  - now destruct (tickIntervalId (self w)).
  - rewrite H. cbn [filter fst]. now rewrite Nat.eqb_refl.
  - destruct H.
Qed.

Lemma p0_tidy_frame w (w' : World Env) :
  intervals w' = intervals w ->
  tickIntervalId (self w') = tickIntervalId (self w) ->
  tidy w -> tidy w'.
Proof. unfold tidy. now intros -> ->. Qed.

Lemma p0_update_tidy (fuel : nat) (now : Z) w (w' : World Env) :
  update fuel now w = Some (tt, w') ->
  tickIntervalId (self w') = tickIntervalId (self w) /\
  (tidy w -> tidy w').
Proof.
  intro H. destruct (@p0_update_returns fuel now w w' H) as (wd & D & ->).
  destruct (@p0_drain_frame fuel _ wd D) as (_ & _ & T & _ & F).
  assert (E1 : intervals (loop_entry now w) = intervals w).
  { rewrite p0_loop_entry_eq. cbv zeta. destruct (gt _ _); reflexivity. }
  assert (E2 : tickIntervalId (self (loop_entry now w))
               = tickIntervalId (self w)).
  { rewrite p0_loop_entry_eq. cbv zeta. destruct (gt _ _); reflexivity. }
  cbn [self record]. split; [congruence|].
  intro Hw.
  apply (@p0_tidy_frame wd (record (EmitUpdate (residualDelay (self wd))) wd));
    [reflexivity | reflexivity|].
  apply F. exact (@p0_tidy_frame w (loop_entry now w) E1 E2 Hw).
Qed.

Lemma p0_perform_tidy (fuel : nat) (a : Action) w (w' : World Env) :
  perform fuel a w = Some (tt, w') ->
  (tidy w -> tidy w') /\
  (isRunning w = Some (true, w) -> isRunning w' = Some (true, w')).
Proof.
  intro H. destruct a as [now| |id now]; cbn [perform] in H.
  - split.
    + intro Hw. destruct (@p0_start_tidy now w Hw) as (w1 & S & I & T & _).
      rewrite S in H. injection H as <-. unfold tidy. now rewrite I, T.
    + intros _. rewrite p0_start_eq in H. injection H as <-. reflexivity.
  - split.
    + intro Hw. destruct (@p0_stop_tidy w Hw) as (w1 & S & I & _).
      rewrite S in H. injection H as <-. unfold tidy. now rewrite I.
    + intro R. exact (@p0_isRunning_after_stop Env w w' true H R).
  - cbv [tick bind get ret] in H.
    destruct (existsb _ (intervals w)).
    + destruct (@p0_update_tidy fuel now w w' H) as (T & F). split; [exact F|].
      cbv [isRunning bind this get ret]. rewrite T.
      intros [= R]. now rewrite R.
    + injection H as <-. tauto.
Qed.

(** X12: this variant never holds two timers.  From a world in which the
    host holds at most the timer that the loop remembers, as one fresh from
    the constructor is, every script of calls and ticks that returns ends in
    such a world: [start()] while running replaces the timer. *)
Theorem p0_single_timer (fuel : nat) (acts : list Action) :
  forall w w' : World Env,
    tidy w ->
    run fuel acts w = Some (tt, w') ->
    tidy w' /\ (List.length (intervals w') <= 1)%nat.
Proof.
  assert (Hlen : forall w : World Env,
             tidy w -> (List.length (intervals w) <= 1)%nat).
  { intros w H. unfold tidy in H.
    destruct (intervals w) as [|[id p] [|t ts]]; cbn;
      try lia; try (now destruct H). }
  induction acts as [|a acts IH]; intros w w' Hw H.
  - injection H as <-. split; [exact Hw | now apply Hlen].
  - cbn [run] in H. unfold bind in H.
    destruct (perform fuel a w) as [[[] w1]|] eqn:P; [|discriminate H].
    destruct (@p0_perform_tidy fuel a w w1 P) as (F & _).
    exact (IH w1 w' (F Hw) H).
Qed.

(** X13: once [isRunning()] answers [true] it answers [true] for ever:
    [stop()] clears the timer and leaves [tickIntervalId] as it is. *)
Theorem p0_isRunning_sticks (fuel : nat) (acts : list Action) :
  forall w w' : World Env,
    isRunning w = Some (true, w) ->
    run fuel acts w = Some (tt, w') ->
    isRunning w' = Some (true, w').
Proof.
  induction acts as [|a acts IH]; intros w w' Hw H.
  - now injection H as <-.
  - cbn [run] in H. unfold bind in H.
    destruct (perform fuel a w) as [[[] w1]|] eqn:P; [|discriminate H].
    destruct (@p0_perform_tidy fuel a w w1 P) as (_ & F).
    exact (IH w1 w' (F Hw) H).
Qed.

(** X14: in this variant [stop()] is effective at once.  In a world where
    the host holds at most the timer that the loop remembers, [stop()]
    leaves the host without any timer, and then no tick runs a cycle until
    [start()] is called: such a script changes neither the loop, nor the
    closure of the step function, and logs only its calls of
    [clearInterval]. *)
Theorem p0_stop_is_effective (fuel : nat) (acts : list Action) w :
  tidy w ->
  Forall not_Start acts ->
  exists w' : World Env,
    run fuel (Stop :: acts) w = Some (tt, w') /\
    intervals w' = [] /\
    self w' = self w /\
    closure w' = closure w /\
    invocations (log w') = invocations (log w) /\
    updates (log w') = updates (log w).
Proof.
  intros Hw Hacts.
  assert (Hquiet : forall acts, Forall not_Start acts ->
            forall w1 : World Env,
              intervals w1 = [] ->
              exists w' : World Env,
                run fuel acts w1 = Some (tt, w') /\
                intervals w' = [] /\
                self w' = self w1 /\
                closure w' = closure w1 /\
                invocations (log w') = invocations (log w1) /\
                updates (log w') = updates (log w1)).
  { clear. induction 1 as [|a acts Ha Hacts IH]; intros w1 I1.
    - exists w1. repeat split. exact I1.
    - assert (P : exists w2 : World Env,
                 perform fuel a w1 = Some (tt, w2) /\
                 intervals w2 = [] /\
                 self w2 = self w1 /\
                 closure w2 = closure w1 /\
                 invocations (log w2) = invocations (log w1) /\
                 updates (log w2) = updates (log w1)).
      { destruct a as [now| |id now]; [destruct Ha| |].
        - cbn [perform]. rewrite p0_stop_eq. eexists.
          split; [reflexivity|].
          cbn [intervals self closure log record set_intervals].
          rewrite I1, p0_invocations_app. unfold updates.
          rewrite flat_map_app. cbn. rewrite app_nil_r, Nat.add_0_r.
          repeat split. now destruct (tickIntervalId (self w1)).
        - exists w1. cbn [perform]. cbv [tick bind get ret].
          rewrite I1. cbn [existsb]. repeat split. }
      destruct P as (w2 & P & I2 & S2 & C2 & N2 & U2).
      destruct (IH w2 I2) as (w' & R & I' & S' & C' & N' & U').
      exists w'. cbn [run]. unfold bind. rewrite P.
      split; [exact R|]. repeat split; congruence. }
  destruct (@p0_stop_tidy w Hw) as (w1 & S & I1 & S1).
  assert (L1 : invocations (log w1) = invocations (log w) /\
               updates (log w1) = updates (log w) /\
               closure w1 = closure w).
  { rewrite p0_stop_eq in S. injection S as <-.
    cbn [log closure record set_intervals].
    rewrite p0_invocations_app. unfold updates. rewrite flat_map_app. cbn.
    rewrite app_nil_r, Nat.add_0_r. repeat split. }
  destruct L1 as (N1 & U1 & C1).
  destruct (Hquiet acts Hacts w1 I1) as (w' & R & I' & S' & C' & N' & U').
  exists w'. cbn [run]. unfold bind. cbn [perform]. rewrite S.
  split; [exact R|]. repeat split; congruence.
Qed.

(** X15: [start()] of this variant, running or not, leaves the host with
    exactly one timer, whose period is the step rate in hertz taken as
    milliseconds, not the step interval; it takes the current time as the
    reference time and keeps the residual delay. *)
Theorem p0_start_arms_one_timer (now : Z) w :
  tidy w ->
  exists w' : World Env,
    start now w = Some (tt, w') /\
    intervals w' = [(next_id w, stepRate (self w))] /\
    isRunning w' = Some (true, w') /\
    previousStepTime (self w') = now /\
    residualDelay (self w') = residualDelay (self w).
Proof.
  intro Hw. destruct (@p0_start_tidy now w Hw) as (w' & S & I & T & P & R).
  exists w'. split; [exact S|]. split; [exact I|].
  split; [|split; [exact P | exact R]].
  cbv [isRunning bind this get ret]. now rewrite T.
Qed.

End More.

(** A loop that was never started still runs a cycle when [update] is
    called: three invocations at 100 Hz, and the payload is 5 ms. *)
Lemma p0_cycle_witness :
  previousStepTime (self never_started_after) = 35%Z /\
  ge (residualDelay (self never_started_after)) (interval never_started)
    = false /\
  updates (log never_started_after)
    = updates (log never_started)
      ++ [residualDelay (self never_started_after)].
Proof.
  apply (@p0_cycle unit never_started never_started_after 35 4).
  vm_compute. reflexivity.
Defined.

Lemma p0_single_timer_witness :
  tidy restarted_world /\ (List.length (intervals restarted_world) <= 1)%nat.
Proof.
  apply (@p0_single_timer unit 9 restart_script started_world restarted_world).
  - reflexivity.
  - vm_compute. reflexivity.
Defined.

Lemma p0_isRunning_sticks_witness :
  isRunning restarted_world = Some (true, restarted_world).
Proof.
  apply (@p0_isRunning_sticks unit 9 restart_script started_world
           restarted_world).
  - reflexivity.
  - vm_compute. reflexivity.
Defined.

Lemma p0_stop_is_effective_witness :
  exists w' : World unit,
    run 9 [Stop; Tick 1 10; Stop; Tick 1 20] started_world = Some (tt, w') /\
    intervals w' = [] /\
    invocations (log w') = 0%nat /\
    updates (log w') = [].
Proof.
  destruct (@p0_stop_is_effective unit 9 [Tick 1 10; Stop; Tick 1 20]
              started_world)
    as (w' & R & I & _ & _ & N & U).
  - reflexivity.
  - repeat constructor.
  - exists w'. split; [exact R|]. split; [exact I|].
    split; [exact N | exact U].
Defined.

Lemma p0_start_arms_one_timer_witness :
  exists w' : World unit,
    start 5 started_world = Some (tt, w') /\
    intervals w' = [(2%nat, Num 100)] /\
    isRunning w' = Some (true, w').
Proof.
  destruct (@p0_start_arms_one_timer unit 5 started_world)
    as (w' & S & I & R & _).
  - reflexivity.
  - exists w'. split; [exact S|]. split; [exact I | exact R].
Defined.

End Part000More.

(** * Claims and properties that depend on rounding *)

(** From here on the loop is the one of module [game_loop_ieee], and the
    numbers are doubles. *)

Import Double DoubleFacts game_loop_ieee GameLoopIeeeFacts.

Local Open Scope method_scope.

(** C1, as amended: in a scheduling cycle that passes the guard, the loop
    that follows the clamp check runs while the residual delay is at least
    the interval; each turn invokes the step function once and subtracts
    the interval once, in double arithmetic.  So the cycle makes exactly
    [n] invocations when the residual delay is at least the interval
    before each of the first [n] subtractions and below it after them, and
    it leaves the residual delay that these subtractions give.  When the
    interval [i] and the residual delay [r] at the entry of the loop are
    whole numbers of milliseconds below [2 ^ 53], no subtraction rounds:
    the cycle makes [floor (r / i)] invocations and leaves [r mod i]. *)
Theorem C1_drain_invocations (Env : Type) (w : World Env) (now : Z) :
  _isRunning (self w) = true ->
  (forall n fuel : nat,
     (forall k, (k < n)%nat ->
        ge (residual_after k (loop_entry now w)) (interval w) = true) ->
     ge (residual_after n (loop_entry now w)) (interval w) = false ->
     (n < fuel)%nat ->
     exists w' : World Env,
       update fuel now w = Some (tt, w') /\
       invocations (log w') = (invocations (log w) + n)%nat /\
       residualDelayMs (self w') = residual_after n (loop_entry now w)) /\
  (forall (i r : Z) (fuel : nat),
     interval w = of_Z i -> (0 < i < 2 ^ 53)%Z ->
     residualDelayMs (self (loop_entry now w)) = of_Z r ->
     (0 <= r < 2 ^ 53)%Z ->
     (Z.to_nat (r / i) < fuel)%nat ->
     exists w' : World Env,
       update fuel now w = Some (tt, w') /\
       invocations (log w') = (invocations (log w) + Z.to_nat (r / i))%nat /\
       residualDelayMs (self w') = of_Z (r mod i)).
Proof.
  intro Hrun. split.
  - intros n fuel Hbefore Hafter Hfuel.
    eexists. split; [exact (@cycle_iter Env n fuel now w Hrun Hbefore Hafter Hfuel)|].
    cbn [log self record].
    rewrite ieee_invocations_app, turns_invocations,
      ieee_loop_entry_invocations, turns_residualDelayMs.
    split; [cbn; lia | reflexivity].
  - intros i r fuel Hi Hpos Hr Hbound Hfuel.
    destruct (@drain_whole Env i r fuel (loop_entry now w))
      as [D R]; try assumption.
    { now rewrite ieee_loop_entry_interval. }
    eexists. split.
    { rewrite (ieee_update_from_loop_entry fuel now w Hrun). unfold bind.
      rewrite D. apply ieee_epilogue_eq. }
    cbn [log self record].
    rewrite ieee_invocations_app, turns_invocations,
      ieee_loop_entry_invocations, turns_residualDelayMs.
    split; [cbn; lia | exact R].
Qed.

(** At 100 Hz a cycle that finds 35 ms makes three invocations and leaves
    5 ms; at 60 Hz a cycle that finds 50 ms makes two. *)
Lemma C1_witness :
  (exists w' : World unit,
     update 4 35 (example_world (of_Z 100) (of_Z 200) 0 (of_Z 0) true)
       = Some (tt, w') /\
     invocations (log w') = 3%nat /\
     residualDelayMs (self w') = of_Z 5) /\
  (exists w' : World unit,
     update 3 50 (example_world (of_Z 60) (of_Z 200) 0 (of_Z 0) true)
       = Some (tt, w') /\
     invocations (log w') = 2%nat).
Proof.
  split.
  - destruct (@C1_drain_invocations unit
                (example_world (of_Z 100) (of_Z 200) 0 (of_Z 0) true) 35
                eq_refl) as [_ H].
    destruct (H 10%Z 35%Z 4%nat) as (w' & U & I & R).
    + vm_compute. reflexivity.
    + lia.
    + vm_compute. reflexivity.
    + lia.
    + vm_compute. lia.
    + exists w'. split; [exact U|]. split; [exact I | exact R].
  - destruct (@C1_drain_invocations unit
                (example_world (of_Z 60) (of_Z 200) 0 (of_Z 0) true) 50
                eq_refl) as [H _].
    destruct (H 2%nat 3%nat) as (w' & U & I & _).
    + intros [|[|k]] Hk; [vm_compute; reflexivity ..|lia].
    + vm_compute. reflexivity.
    + lia.
    + exists w'. split; [exact U | exact I].
Defined.

(** C1 as stated fails: the number of invocations is not the number of
    whole intervals in the residual delay.  At 60 Hz the interval
    [1000 / 60] is the double just above 16.666...; a cycle that finds 50
    ms at the entry of its loop makes two invocations, and leaves the double
    just below 16.666..., while 50 ms hold three intervals, and the
    quotient of 50 by the interval, as the code would compute it, is 3 as
    well. *)
Lemma C1_counterexample :
  exists w' : World unit,
    update 9 50 (example_world (of_Z 60) (of_Z 200) 0 (of_Z 0) true)
      = Some (tt, w') /\
    residualDelayMs
      (self (loop_entry 50
               (example_world (of_Z 60) (of_Z 200) 0 (of_Z 0) true)))
      = of_Z 50 /\
    invocations (log w') = 2%nat /\
    Number.floor (50 / (1000 / 60)) = 3%Z /\
    div (of_Z 50) (div (of_Z 1000) (of_Z 60)) = of_Z 3 /\
    lt (residualDelayMs (self w')) (div (of_Z 1000) (of_Z 60)) = true.
Proof.
  eexists. split; [vm_compute; reflexivity|].
  do 4 (split; [vm_compute; reflexivity|]). vm_compute. reflexivity.
Qed.

(** The loop of a cycle makes no turn, one turn or several turns. *)
Example drain_zero_one_many :
  let cycle_invocations (now : Z) :=
    match update 9 now
            (example_world (of_Z 60) (of_Z 200) 0 (of_Z 0) true) with
    | Some (_, w') => Some (invocations (log w'))
    | None => None
    end in
  cycle_invocations 16%Z = Some 0%nat /\
  cycle_invocations 17%Z = Some 1%nat /\
  cycle_invocations 100%Z = Some 5%nat.
Proof. repeat split; vm_compute; reflexivity. Qed.




(** * Further properties that depend on rounding *)

(** Discharges the closed side conditions of the examples. *)
Ltac by_evaluation :=
  repeat split; vm_compute; (reflexivity || discriminate).

(** ** Loops that compute on whole numbers of milliseconds *)

(** X1: the clamp bounds the work of a cycle.  For a running loop whose
    interval [i], clamp [c], reference time and residual delay are whole
    numbers of milliseconds, a cycle returns after at most [floor (c / i)]
    invocations of the step function, however long ago the previous cycle
    was. *)
Theorem clamp_bounds_cycle (Env : Type) (w : World Env) (now i c p r : Z)
    (fuel : nat) :
  _isRunning (self w) = true ->
  whole_ms i c p r w ->
  (p <= now < 2 ^ 53)%Z -> (r + (now - p) < 2 ^ 53)%Z ->
  (Z.to_nat (c / i) < fuel)%nat ->
  exists w' : World Env,
    update fuel now w = Some (tt, w') /\
    (invocations (log w') <= invocations (log w) + Z.to_nat (c / i))%nat.
Proof.
  intros Hrun W Hnow Hacc Hfuel.
  pose proof W as (_ & Hib & _ & Hcb & _ & Hpb & _ & Hrb).
  assert (Hq : (0 <= Z.min (r + (now - p)) c / i <= c / i)%Z).
  { split; [apply Z.div_pos; lia | apply Z.div_le_mono; lia]. }
  destruct (@whole_cycle Env i c p r now fuel w Hrun W Hnow Hacc)
    as (w' & U & _ & I & _); [lia|].
  exists w'. split; [exact U|]. lia.
Qed.

(** A loop at 100 Hz with a clamp of 25 ms, woken up a second late, makes
    two invocations. *)
Lemma clamp_bounds_cycle_witness :
  exists w' : World unit,
    update 3 1000 (example_world (of_Z 100) (of_Z 25) 0 (of_Z 0) true)
      = Some (tt, w') /\
    (invocations (log w') <= 2)%nat.
Proof.
  apply (@clamp_bounds_cycle unit
           (example_world (of_Z 100) (of_Z 25) 0 (of_Z 0) true)
           1000 10 25 0 0 3); by_evaluation.
Defined.

(** X2: no time is lost between cycles.  For a loop whose interval, clamp,
    reference time and residual delay are whole numbers of milliseconds and
    that holds less than one interval, a script of wake-ups and calls of
    [stop()] whose readings never go back returns, the loop still computes
    on whole numbers, and the sum of the residual delay, of one interval
    per invocation made by the script and of the overflows it reported as
    dropped, counted from the reference time, is what it was. *)
Theorem time_is_accounted_for (Env : Type) (w : World Env)
    (acts : list Action) (i c p r last : Z) (fuel : nat) :
  whole_ms i c p r w -> (r < i)%Z -> (p <= last)%Z ->
  Forall not_Start acts ->
  monotone (2 ^ 53 - i) last acts ->
  (Z.to_nat (c / i) < fuel)%nat ->
  exists (w' : World Env) (p' r' : Z) (ds : list Z),
    run fuel acts w = Some (tt, w') /\
    whole_ms i c p' r' w' /\ (r' < i)%Z /\
    dropped (log w') = dropped (log w) ++ map of_Z ds /\
    Forall (fun d => (0 < d)%Z) ds /\
    (r' + Z.of_nat (invocations (log w') - invocations (log w)) * i
       + total ds - p' = r - p)%Z.
Proof.
  intros W R P Hns Hm Hfuel.
  assert (S0 : settled i c (invocations (log w)) (dropped (log w)) (r - p)
                 last w).
  { exists p, r, []. split; [exact W|]. split; [exact R|]. split; [exact P|].
    split; [cbn; now rewrite app_nil_r|]. split; [constructor|].
    split; [lia|]. rewrite Nat.sub_diag. cbn. lia. }
  destruct (@run_settled Env i c _ _ _ acts fuel last w S0 Hns Hm Hfuel)
    as (last' & w' & Hrun & p' & r' & ds & W' & R' & _ & D & F & _ & E).
  exists w', p', r', ds. tauto.
Qed.

(** A loop at 100 Hz with a clamp of 25 ms that holds 3 ms at the reading
    5: after wake-ups at the readings 12 and 60, the second of which
    overflows the clamp, the ledger still shows 3 - 5. *)
Lemma time_is_accounted_for_witness :
  exists (w' : World unit) (p' r' : Z) (ds : list Z),
    run 3 [Wake 12; Stop; Wake 60]
      (set_timers [of_Z 10; of_Z 10]
         (example_world (of_Z 100) (of_Z 25) 5 (of_Z 3) true))
      = Some (tt, w') /\
    previousStepTime (self w') = of_Z p' /\
    residualDelayMs (self w') = of_Z r' /\
    dropped (log w') = map of_Z ds /\
    (r' + Z.of_nat (invocations (log w')) * 10 + total ds - p' = 3 - 5)%Z.
Proof.
  destruct (@time_is_accounted_for unit
              (set_timers [of_Z 10; of_Z 10]
                 (example_world (of_Z 100) (of_Z 25) 5 (of_Z 3) true))
              [Wake 12; Stop; Wake 60] 10 25 5 3 5 3)
    as (w' & p' & r' & ds & Hrun & W & _ & D & _ & E).
  - by_evaluation.
  - reflexivity.
  - apply Z.le_refl.
  - repeat constructor.
  - by_evaluation.
  - vm_compute. lia.
  - exists w', p', r', ds. split; [exact Hrun|].
    destruct W as (_ & _ & _ & _ & Hp & _ & Hr & _).
    split; [exact Hp|]. split; [exact Hr|]. split; [exact D|].
    rewrite Nat.sub_0_r in E. exact E.
Defined.

(** X3: the step function keeps pace with the clock.  For a loop
    constructed with a step rate whose interval [i] is a whole number of
    milliseconds and with a whole clamp, started at the reading [t1] and
    then only woken up or stopped, with readings that never go back: the
    invocations of the step function so far never cover more time than has
    passed between [t1] and the last cycle, and, as long as nothing was
    dropped, they are less than one interval behind. *)
Theorem steps_track_the_clock (Env : Type) (step : Env -> Env * Reentry)
    (hz : double) (opts : GameLoopOptions) (t0 t1 t2 : Z) (s : Env)
    (l : GameLoop Env) (acts : list Action) (i c : Z) (fuel : nat) :
  constructor step hz opts t0 = Returned l ->
  div (of_Z 1000) hz = of_Z i -> (0 < i < 2 ^ 53)%Z ->
  delayClamp l = of_Z c -> (0 <= c < 2 ^ 53)%Z ->
  monotone (2 ^ 53 - i) 0 (Start t1 t2 :: acts) ->
  Forall not_Start acts ->
  (Z.to_nat (c / i) < fuel)%nat ->
  exists (w' : World Env) (p' : Z),
    run fuel (Start t1 t2 :: acts) (boot s l) = Some (tt, w') /\
    previousStepTime (self w') = of_Z p' /\
    (Z.of_nat (invocations (log w')) * i <= p' - t1)%Z /\
    (dropped (log w') = [] ->
     (p' - t1 < (Z.of_nat (invocations (log w')) + 1) * i)%Z).
Proof.
  intros [= <-] Hi Hib Hc Hcb Hm Hns Hfuel.
  cbn [delayClamp] in Hc. cbn [monotone] in Hm.
  destruct Hm as (Ht1 & Ht2 & Hm).
  set (l := {| stepFn := step; stepRate := hz; previousStepTime := of_Z t0;
               residualDelayMs := of_Z 0;
               delayClamp :=
                 required_delayClampMs (provideDefaultsForMissingOpts opts);
               _isRunning := false |}) in *.
  set (w0 := restarted t1 (boot s l)).
  assert (S0 : settled i c 0 [] (- t1) t1 w0).
  { exists t1, 0%Z, []. split.
    { unfold whole_ms. repeat split; try assumption; try lia; reflexivity. }
    repeat split; try lia; try reflexivity. constructor. }
  destruct (@update_settled Env i c 0%nat [] (- t1)%Z t1 t2 fuel w0 S0)
    as (wa & U & Sa); [lia | lia | exact Hfuel |].
  destruct (@run_settled Env i c 0%nat [] (- t1)%Z acts fuel t2 wa Sa Hns Hm
              Hfuel)
    as (last' & w' & Hrun & p' & r' & ds & W' & R' & _ & D & F & _ & E).
  assert (Hperf : perform fuel (Start t1 t2) (boot s l) = Some (tt, wa)).
  { cbn [perform]. unfold bind at 1. rewrite ieee_start_eq. unfold bind.
    change (restarted t1 (boot s l)) with w0. now rewrite U. }
  exists w', p'. split.
  { transitivity (run fuel acts wa); [|exact Hrun].
    exact (@ieee_run_cons Env fuel (Start t1 t2) acts (boot s l) wa Hperf). }
  destruct W' as (_ & _ & _ & _ & Hp & _ & _ & Hr0).
  split; [exact Hp|].
  rewrite Nat.sub_0_r in E. pose proof (total_nonneg F) as Hd.
  split; [lia|].
  intro Hnone. rewrite Hnone in D. cbn [app] in D.
  destruct ds as [|d ds]; [cbn in E; lia | discriminate D].
Qed.

(** A loop at 100 Hz started at the reading 3: after cycles at the readings
    3, 40 and 58 it has made five invocations. *)
Lemma steps_track_the_clock_witness :
  exists (w' : World unit) (p' : Z),
    run 21 [Start 3 3; Wake 40; Wake 58]
      (boot tt {| stepFn := inert; stepRate := of_Z 100;
                  previousStepTime := of_Z 0; residualDelayMs := of_Z 0;
                  delayClamp := of_Z 200; _isRunning := false |})
      = Some (tt, w') /\
    previousStepTime (self w') = of_Z p' /\
    (Z.of_nat (invocations (log w')) * 10 <= p' - 3)%Z /\
    (dropped (log w') = [] ->
     (p' - 3 < (Z.of_nat (invocations (log w')) + 1) * 10)%Z).
Proof.
  apply (@steps_track_the_clock unit inert (of_Z 100) no_opts 0 3 3 tt
           _ [Wake 40; Wake 58] 10 200 21).
  - reflexivity.
  - vm_compute. reflexivity.
  - by_evaluation.
  - reflexivity.
  - by_evaluation.
  - by_evaluation.
  - repeat constructor.
  - vm_compute. lia.
Defined.

(** ** Step rates of zero, and intervals that are too small *)

(** X7: with the step rate [+0] the interval is [Infinity]: whatever the
    clamp and however much time has passed, a cycle that passes the guard
    returns without invoking the step function, unless the residual delay
    itself is [Infinity], and arms a wake-up whose delay is [Infinity]. *)
Theorem zero_rate_cycle (Env : Type) (w : World Env) (now : Z) (fuel : nat) :
  _isRunning (self w) = true ->
  stepRate (self w) = S754_zero false ->
  residualDelayMs (self (loop_entry now w)) <> Infinity ->
  exists w' : World Env,
    update (S fuel) now w = Some (tt, w') /\
    invocations (log w') = invocations (log w) /\
    timers w' = timers w ++ [Infinity].
Proof.
  intros Hrun Hrate Hr.
  assert (Hi : interval w = Infinity) by (unfold interval; now rewrite Hrate).
  eexists. split.
  { apply (@cycle_iter Env 0 (S fuel) now w Hrun); [intros k Hk; lia| |lia].
    rewrite Hi. now apply ge_Infinity. }
  cbn [log timers record Nat.iter nat_rect].
  rewrite ieee_invocations_app, ieee_loop_entry_invocations,
    ieee_loop_entry_timers, Hi.
  split; [cbn; lia | reflexivity].
Qed.

Lemma zero_rate_cycle_witness :
  exists w' : World unit,
    update 1 5000 (example_world (S754_zero false) (of_Z 200) 0 (of_Z 0) true)
      = Some (tt, w') /\
    invocations (log w') = 0%nat /\
    timers w' = [Infinity].
Proof.
  apply (@zero_rate_cycle unit
           (example_world (S754_zero false) (of_Z 200) 0 (of_Z 0) true)
           5000 0).
  - reflexivity.
  - reflexivity.
  - vm_compute. discriminate.
Defined.

(** X16: with the step rate [-0] the interval is [-Infinity], and a cycle
    that passes the guard never ends: the residual delay it starts from is
    at least the interval unless it is [NaN], and the first subtraction
    makes it [Infinity], which no further subtraction changes. *)
Theorem negative_zero_rate_hangs (Env : Type) (w : World Env) (now : Z)
    (fuel : nat) :
  _isRunning (self w) = true ->
  stepRate (self w) = S754_zero true ->
  residualDelayMs (self (loop_entry now w)) <> NaN ->
  residualDelayMs (self (loop_entry now w)) <> NegInfinity ->
  update fuel now w = None.
Proof.
  intros Hrun Hrate Hnan Hninf.
  assert (Hi : interval w = NegInfinity)
    by (unfold interval; now rewrite Hrate).
  set (e := loop_entry now w) in *.
  assert (H1 : residual_after 1 e = Infinity).
  { unfold residual_after. cbn [Nat.iter nat_rect]. unfold e.
    rewrite ieee_loop_entry_interval, Hi.
    apply sub_NegInfinity; assumption. }
  apply (@cycle_stuck Env 1 fuel now w Hrun); fold e; rewrite Hi.
  - intros [|[|k]] Hk; [now apply ge_NegInfinity | now rewrite H1 | lia].
  - now rewrite H1.
Qed.

Lemma negative_zero_rate_hangs_witness :
  update 1000 5000
    (example_world (S754_zero true) (of_Z 200) 0 (of_Z 0) true) = None.
Proof.
  apply (@negative_zero_rate_hangs unit
           (example_world (S754_zero true) (of_Z 200) 0 (of_Z 0) true)
           5000 1000).
  - reflexivity.
  - reflexivity.
  - vm_compute. discriminate.
  - vm_compute. discriminate.
Defined.

(** X17: a cycle never ends when the interval is too small for the residual
    delay: if, after some turns of the loop, subtracting the interval leaves
    the residual delay as it is (the difference rounds back to it) while it
    is at least the interval, every further turn finds the same residual
    delay. *)
Theorem absorbed_interval_hangs (Env : Type) (w : World Env) (now : Z)
    (n fuel : nat) :
  _isRunning (self w) = true ->
  (forall k, (k <= n)%nat ->
     ge (residual_after k (loop_entry now w)) (interval w) = true) ->
  sub (residual_after n (loop_entry now w)) (interval w)
    = residual_after n (loop_entry now w) ->
  update fuel now w = None.
Proof.
  intros Hrun Hge Hsub.
  exact (@cycle_stuck Env n fuel now w Hrun Hge Hsub).
Qed.

(** At [10 ^ 20] Hz the interval is about [10 ^ -17] ms, less than half the
    gap between 1 and the double below it: the first cycle, one
    millisecond after the start, never ends. *)
Lemma absorbed_interval_hangs_witness :
  update 1000 1
    (example_world (of_Z (10 ^ 20)) (of_Z 200) 0 (of_Z 0) true) = None.
Proof.
  apply (@absorbed_interval_hangs unit
           (example_world (of_Z (10 ^ 20)) (of_Z 200) 0 (of_Z 0) true)
           1 0 1000).
  - reflexivity.
  - intros k Hk. assert (k = 0%nat) as -> by lia. vm_compute. reflexivity.
  - vm_compute. reflexivity.
Defined.

